(** * Cable game: the obstacle, trail and collision core

    A shallow embedding of [cable-game.py] (the moving-obstacle variant) and
    of the Game-of-Life variant [archive/cable-game-v5.py], with the
    properties of their per-tick update, their obstacle generators and
    their heading controller.

    Cells are pairs of Python integers ([Z]); the obstacle set is a Python
    [set] of cells ([gset]); the direction map is a [dict] keyed by cell
    ([gmap]); the trail is a Python [list].  Random draws, sounds and
    printing go through a small state-and-exception monad. *)

From Stdlib Require Import ZArith List Lia QArith.
From stdpp Require Import base tactics option list gmap fin_sets fin_maps sorting.

Local Close Scope Q_scope.
Local Open Scope Z_scope.

(** ** Cells and headings *)

Definition Cell : Type := Z * Z.

(** [class Direction(Enum)] with its [value]. *)
Inductive Direction := UP | DOWN | LEFT | RIGHT.

Definition value (d : Direction) : Z * Z :=
  match d with
  | UP => (0, -1)
  | DOWN => (0, 1)
  | LEFT => (-1, 0)
  | RIGHT => (1, 0)
  end.

Definition opposite (d : Direction) : Direction :=
  match d with
  | UP => DOWN
  | DOWN => UP
  | LEFT => RIGHT
  | RIGHT => LEFT
  end.

Definition perpendicular (d e : Direction) : bool :=
  match d, e with
  | (UP | DOWN), (LEFT | RIGHT) => true
  | (LEFT | RIGHT), (UP | DOWN) => true
  | _, _ => false
  end.

#[global] Instance Direction_eq_dec : EqDecision Direction.
Proof. solve_decision. Defined.

(** ** Effects: exceptions, random draws, sounds *)

Inductive Exn :=
  IndexError | KeyError | ValueError | UnboundLocalError | OverflowError.

(** The result of running a piece of code: a value, a raised exception, or
    a loop that was still running when the iteration budget ran out. *)
Inductive Res (A : Type) : Type :=
| Ok (a : A)
| Raise (e : Exn)
| OutOfFuel.
Arguments Ok {A} a.
Arguments Raise {A} e.
Arguments OutOfFuel {A}.

Inductive Effect := FailSound | SuccessSound | YouWinPrinted.

#[global] Instance Effect_eq_dec : EqDecision Effect.
Proof. solve_decision. Defined.

(** The world outside the game object: the stream of raw random numbers
    the [random] module will deliver, and what has been played or printed
    so far (oldest first). *)
Record World := mkWorld {
  tape : nat -> N;
  trace : list Effect
}.

Definition M (A : Type) : Type := World -> Res (A * World).

Definition ret {A} (a : A) : M A := fun w => Ok (a, w).

Definition bind {A B} (c : M A) (k : A -> M B) : M B :=
  fun w =>
    match c w with
    | Ok (a, w') => k a w'
    | Raise e => Raise e
    | OutOfFuel => OutOfFuel
    end.

Definition raise {A} (e : Exn) : M A := fun _ => Raise e.
Definition out_of_fuel {A} : M A := fun _ => OutOfFuel.

Notation "x <- c ;; k" := (bind c (fun x => k))
  (at level 100, c at next level, right associativity).
Notation "c ;;; k" := (bind c (fun _ => k))
  (at level 100, right associativity).

(** The world once the first number is off the tape, and the draw of
    one raw number. *)
Definition rest (w : World) : World :=
  mkWorld (fun n => tape w (S n)) (trace w).

Definition draw : M N := fun w => Ok (tape w 0%nat, rest w).

Definition emit (e : Effect) : M unit :=
  fun w => Ok (tt, mkWorld (tape w) (trace w ++ [e])).

(** [random.random()]: a float k / 2^53 with 0 <= k < 2^53; the model keeps
    the numerator k. *)
Definition random_random : M Z :=
  n <- draw ;; ret (Z.of_N n mod 2 ^ 53).

(** [r < 0.1] and [r < 0.5] for r = k / 2^53. *)
Definition lt_0_1 (k : Z) : bool := 10 * k <? 2 ^ 53.
Definition lt_0_5 (k : Z) : bool := 2 * k <? 2 ^ 53.

(** The numerator of what the next [random.random()] returns in [w]. *)
Definition next_random (w : World) : Z := Z.of_N (tape w 0%nat) mod 2 ^ 53.

(** A tape that delivers the numbers of [l] and [d] ever after, and the
    world that starts with it. *)
Definition tape_of (l : list N) (d : N) : nat -> N := fun n => nth n l d.
Definition world_of (l : list N) (d : N) : World := mkWorld (tape_of l d) [].

(** The outcome of a run, without the world it leaves. *)
Definition value_of {A} (r : Res (A * World)) : Res A :=
  match r with
  | Ok (a, _) => Ok a
  | Raise e => Raise e
  | OutOfFuel => OutOfFuel
  end.

(** [random.choice(seq)]: IndexError on an empty sequence. *)
Definition random_choice {A} (l : list A) : M A :=
  match l with
  | [] => raise IndexError
  | a :: _ =>
      n <- draw ;; ret (nth (N.to_nat (n mod N.of_nat (length l))) l a)
  end.

(** [random.randint(a, b)]: ValueError on an empty range. *)
Definition random_randint (a b : Z) : M Z :=
  if b <? a then raise ValueError
  else n <- draw ;; ret (a + Z.of_N n mod (b - a + 1)).

(** [for x in l: acc = body(acc, x)] *)
Fixpoint for_each {A S} (l : list A) (body : S -> A -> M S) (acc : S) : M S :=
  match l with
  | [] => ret acc
  | x :: l' => acc' <- body acc x ;; for_each l' body acc'
  end.

(** [range(a, b)] over Python integers. *)
Definition range (a b : Z) : list Z := seqZ a (b - a).

(** [l[0]] and [l[-1]]. *)
Definition first_item {A} (l : list A) : M A :=
  match l with
  | [] => raise IndexError
  | a :: _ => ret a
  end.

Definition last_item {A} (l : list A) : M A :=
  match last l with
  | None => raise IndexError
  | Some a => ret a
  end.

(** [d[k]] on a dict. *)
Definition getitem {V} (d : gmap Cell V) (k : Cell) : M V :=
  match d !! k with
  | None => raise KeyError
  | Some v => ret v
  end.

(** The double nearest to the integer [n], ties to even: [n] cut to 53
    significant bits.  The result is again an integer. *)
Definition nearest_double (n : Z) : Z :=
  let a := Z.abs n in
  let e := Z.log2 a - 52 in
  if e <=? 0 then n
  else
    let q := a / 2 ^ e in
    let r := a mod 2 ^ e in
    let half := 2 ^ (e - 1) in
    let q' := if (half <? r) || ((r =? half) && Z.odd q) then q + 1 else q in
    Z.sgn n * (q' * 2 ^ e).

(** [n / 2] on a Python int: true division gives the double nearest to
    the quotient, OverflowError when that is 2^1024 or more.  Halving a
    double is exact, so the result is half the double nearest to [n]; it
    is kept as the rational it stands for. *)
Definition true_divide_2 (n : Z) : M Q :=
  let m := nearest_double n in
  if 2 ^ 1025 <=? Z.abs m then raise OverflowError
  else ret (inject_Z m / 2)%Q.

(** [d > f] for an int [d] and a double [f]: Python compares the two
    exactly. *)
Definition int_gt_float (d : Z) (f : Q) : bool := negb (Qle_bool (inject_Z d) f).

Definition in_list (c : Cell) (l : list Cell) : bool := bool_decide (c ∈ l).
Definition in_set (c : Cell) (s : gset Cell) : bool := bool_decide (c ∈ s).
Definition cell_eqb (c d : Cell) : bool := bool_decide (c = d).


(** ** cable-game.py: the moving-obstacle variant *)

Module CableGame.

(** The attributes of [Game] the core reads and writes (the pygame screen
    and the loaded sounds are left to the adapters). *)
Record Game := mkGame {
  width : Z;
  height : Z;
  cable : list Cell;
  direction : Direction;
  obstacles : gset Cell;
  obstacle_directions : gmap Cell (Z * Z);
  outlet : Cell;
  running : bool
}.

Definition set_cable (self : Game) (c : list Cell) : Game :=
  mkGame (width self) (height self) c (direction self) (obstacles self)
         (obstacle_directions self) (outlet self) (running self).

Definition set_direction (self : Game) (d : Direction) : Game :=
  mkGame (width self) (height self) (cable self) d (obstacles self)
         (obstacle_directions self) (outlet self) (running self).

Definition set_obstacles (self : Game) (o : gset Cell) : Game :=
  mkGame (width self) (height self) (cable self) (direction self) o
         (obstacle_directions self) (outlet self) (running self).

Definition set_obstacle_directions (self : Game) (m : gmap Cell (Z * Z)) : Game :=
  mkGame (width self) (height self) (cable self) (direction self)
         (obstacles self) m (outlet self) (running self).

Definition set_outlet (self : Game) (o : Cell) : Game :=
  mkGame (width self) (height self) (cable self) (direction self)
         (obstacles self) (obstacle_directions self) o (running self).

Definition set_running (self : Game) (b : bool) : Game :=
  mkGame (width self) (height self) (cable self) (direction self)
         (obstacles self) (obstacle_directions self) (outlet self) b.

(** pygame's key codes (pygame 2). *)
Definition K_RIGHT : Z := 1073741903.
Definition K_LEFT : Z := 1073741904.
Definition K_DOWN : Z := 1073741905.
Definition K_UP : Z := 1073741906.

(** The key that asks for a heading. *)
Definition key_of (d : Direction) : Z :=
  match d with
  | UP => K_UP
  | DOWN => K_DOWN
  | LEFT => K_LEFT
  | RIGHT => K_RIGHT
  end.

(** [_random_direction] *)
Definition _random_direction : M (Z * Z) :=
  random_choice [(0, 1); (0, -1); (1, 0); (-1, 0)].

(** [_get_valid_neighbors]: [self.cable[0]] is only evaluated for a
    neighbour that passed the bounds test ([and] short-circuits). *)
Definition _get_valid_neighbors (self : Game) (pos : Cell) : M (list Cell) :=
  for_each [-1; 0; 1] (fun neighbors dx =>
    for_each [-1; 0; 1] (fun neighbors dy =>
      if (dx =? 0) && (dy =? 0) then ret neighbors
      else
        let new_x := pos.1 + dx in
        let new_y := pos.2 + dy in
        if (0 <=? new_x) && (new_x <? width self)
           && (0 <=? new_y) && (new_y <? height self)
        then
          c0 <- first_item (cable self) ;;
          if negb (cell_eqb (new_x, new_y) c0)
          then ret (neighbors ++ [(new_x, new_y)])
          else ret neighbors
        else ret neighbors) neighbors) [].

(** [_process_direction_change] *)
Definition _process_direction_change (self : Game) (key : Z) : Game :=
  let '(current_dx, current_dy) := value (direction self) in
  let new_direction :=
    if (key =? K_UP) && (current_dy =? 0) then Some UP
    else if (key =? K_DOWN) && (current_dy =? 0) then Some DOWN
    else if (key =? K_LEFT) && (current_dx =? 0) then Some LEFT
    else if (key =? K_RIGHT) && (current_dx =? 0) then Some RIGHT
    else None in
  match new_direction with
  | Some d => set_direction self d
  | None => self
  end.

(** [handle_input]: the drained pygame event queue. *)
Inductive Event := QUIT | KEYDOWN (key : Z) | OtherEvent.

Definition handle_input (self : Game) (events : list Event) : Game :=
  fold_left (fun self ev =>
    match ev with
    | QUIT => set_running self false
    | KEYDOWN key => _process_direction_change self key
    | OtherEvent => self
    end) events self.

Section SetOrder.

(** The order in which Python walks a set is an implementation matter:
    any enumeration of the elements, each once. *)
Variable set_iter : gset Cell -> list Cell.
Hypothesis set_iter_perm : forall s, set_iter s ≡ₚ elements s.

Section Generators.

Variable self : Game.

(** First [while] loop of [_generate_correlated_obstacles]. *)
Fixpoint seed_loop (fuel : nat) (num_obstacles : Z) (obstacles : gset Cell)
  : M (gset Cell) :=
  match fuel with
  | O => out_of_fuel
  | S fuel' =>
      if Z.of_nat (size obstacles) <? num_obstacles / 4 then
        x <- random_randint 0 (width self - 1) ;;
        y <- random_randint 0 (height self - 1) ;;
        let pos := (x, y) in
        c0 <- first_item (cable self) ;;
        if negb (cell_eqb pos c0) && negb (cell_eqb pos (1, height self - 2))
        then seed_loop fuel' num_obstacles ({[pos]} ∪ obstacles)
        else seed_loop fuel' num_obstacles obstacles
      else ret obstacles
  end.

(** Second [while] loop of [_generate_correlated_obstacles]. *)
Fixpoint grow_loop (fuel : nat) (num_obstacles : Z) (obstacles : gset Cell)
  : M (gset Cell) :=
  match fuel with
  | O => out_of_fuel
  | S fuel' =>
      if Z.of_nat (size obstacles) <? num_obstacles then
        existing <- random_choice (set_iter obstacles) ;;
        neighbors <- _get_valid_neighbors self existing ;;
        match neighbors with
        | [] => grow_loop fuel' num_obstacles obstacles
        | _ :: _ =>
            new_pos <- random_choice neighbors ;;
            if negb (in_set new_pos obstacles)
            then grow_loop fuel' num_obstacles ({[new_pos]} ∪ obstacles)
            else grow_loop fuel' num_obstacles obstacles
        end
      else ret obstacles
  end.

(** [_generate_correlated_obstacles]; each loop may run [fuel] times. *)
Definition _generate_correlated_obstacles (fuel : nat) (num_obstacles : Z)
  : M (gset Cell) :=
  obstacles <- seed_loop fuel num_obstacles ∅ ;;
  grow_loop fuel num_obstacles obstacles.

(** [_generate_outlet].  In [d > self.width / 2] the division is Python's
    true division: its result is a double, evaluated only for a cell that
    passed the two tests before it. *)
Fixpoint _generate_outlet (fuel : nat) : M Cell :=
  match fuel with
  | O => out_of_fuel
  | S fuel' =>
      x <- random_randint 0 (width self - 1) ;;
      y <- random_randint 0 (height self - 1) ;;
      let pos := (x, y) in
      if negb (in_set pos (obstacles self)) then
        c0 <- first_item (cable self) ;;
        if negb (cell_eqb pos c0) then
          c0 <- first_item (cable self) ;;
          half <- true_divide_2 (width self) ;;
          if int_gt_float (Z.abs (pos.1 - c0.1) + Z.abs (pos.2 - c0.2)) half
          then ret pos
          else _generate_outlet fuel'
        else _generate_outlet fuel'
      else _generate_outlet fuel'
  end.

End Generators.

(** The destination test of [_update_obstacles]. *)
Definition accepts (self : Game) (new_pos : Cell) : bool :=
  (0 <? new_pos.1) && (new_pos.1 <? width self - 1)
  && (0 <? new_pos.2) && (new_pos.2 <? height self - 1)
  && negb (in_list new_pos (cable self))
  && negb (cell_eqb new_pos (outlet self)).

(** What the loop of [_update_obstacles] carries: [self.obstacle_directions]
    (written in place), [new_obstacles] and [new_directions]. *)
Definition Moving : Type := gmap Cell (Z * Z) * gset Cell * gmap Cell (Z * Z).

(** The body of the [for obs in self.obstacles] loop. *)
Definition move_obstacle (self : Game) (st : Moving) (obs : Cell) : M Moving :=
  let '(dirs, new_obstacles, new_directions) := st in
  r <- random_random ;;
  dirs <- (if lt_0_1 r
           then d <- _random_direction ;; ret (<[obs := d]> dirs)
           else ret dirs) ;;
  d <- getitem dirs obs ;;
  let new_pos := (obs.1 + d.1, obs.2 + d.2) in
  if accepts self new_pos then
    d' <- getitem dirs obs ;;
    ret (dirs, {[new_pos]} ∪ new_obstacles, <[new_pos := d']> new_directions)
  else
    d' <- _random_direction ;;
    let dirs := <[obs := d']> dirs in
    d'' <- getitem dirs obs ;;
    ret (dirs, {[obs]} ∪ new_obstacles, <[obs := d'']> new_directions).

(** [_update_obstacles] *)
Definition _update_obstacles (self : Game) : M Game :=
  st <- for_each (set_iter (obstacles self)) (move_obstacle self)
                 (obstacle_directions self, ∅, ∅) ;;
  let '(_, new_obstacles, new_directions) := st in
  ret (set_obstacle_directions (set_obstacles self new_obstacles) new_directions).

(** [update] *)
Definition update (self : Game) : M Game :=
  self <- _update_obstacles self ;;
  head <- last_item (cable self) ;;
  let '(dx, dy) := value (direction self) in
  let new_head := (head.1 + dx, head.2 + dy) in
  if (new_head.1 <? 0) || (new_head.1 >=? width self)
     || (new_head.2 <? 0) || (new_head.2 >=? height self)
     || in_list new_head (cable self)
     || in_set new_head (obstacles self)
  then
    emit FailSound ;;;
    ret (set_running self false)
  else
    let self := set_cable self (cable self ++ [new_head]) in
    if cell_eqb new_head (outlet self) then
      emit SuccessSound ;;;
      emit YouWinPrinted ;;;
      ret (set_running self false)
    else ret self.

(** The object [__init__] starts from: [width], [height], [cable],
    [direction] and [running] as the source assigns them; the attributes
    assigned later hold nothing that is read before. *)
Definition fresh (width height : Z) : Game :=
  mkGame width height [(1, height - 2)] RIGHT ∅ ∅ (0, 0) true.

(** [__init__]: the attributes are assigned in the order of the source. *)
Definition __init__ (fuel : nat) (width height num_obstacles : Z) : M Game :=
  let self := fresh width height in
  obstacles <- _generate_correlated_obstacles self fuel num_obstacles ;;
  let self := set_obstacles self obstacles in
  dirs <- for_each (set_iter obstacles) (fun m obs =>
            d <- _random_direction ;; ret (<[obs := d]> m)) ∅ ;;
  let self := set_obstacle_directions self dirs in
  outlet <- _generate_outlet self fuel ;;
  ret (set_outlet self outlet).

(** One pass of the body of [run]'s loop, without the drawing. *)
Definition loop_body (self : Game) (events : list Event) : M Game :=
  update (handle_input self events).

(** The states a session can be in. *)
Inductive step : Game -> Game -> Prop :=
| step_input self events : step self (handle_input self events)
| step_update self w self' :
    value_of (update self w) = Ok self' -> step self self'.

Definition initial (self : Game) : Prop :=
  exists fuel width height num_obstacles w,
    value_of (__init__ fuel width height num_obstacles w) = Ok self.

Definition reachable (self : Game) : Prop :=
  exists self0, initial self0 /\ rtc step self0 self.

End SetOrder.

(** The grid, its interior band, the four headings of an obstacle and
    the eight-neighbourhood. *)
Definition in_grid (self : Game) (c : Cell) : Prop :=
  0 <= c.1 < width self /\ 0 <= c.2 < height self.

Definition in_band (self : Game) (c : Cell) : Prop :=
  1 <= c.1 <= width self - 2 /\ 1 <= c.2 <= height self - 2.

Definition is_heading (d : Z * Z) : Prop :=
  d ∈ [(0, 1); (0, -1); (1, 0); (-1, 0)].

Definition adjacent (c d : Cell) : Prop :=
  c <> d /\ Z.abs (d.1 - c.1) <= 1 /\ Z.abs (d.2 - c.2) <= 1.

Definition manhattan (c d : Cell) : Z :=
  Z.abs (c.1 - d.1) + Z.abs (c.2 - d.2).

(** A cell the growth phase may add next to [pos]. *)
Definition growable (self : Game) (pos c : Cell) : Prop :=
  adjacent pos c /\ in_grid self c /\ head (cable self) <> Some c.

(** A cell the seed phase may pick. *)
Definition seedable (self : Game) (c : Cell) : Prop :=
  in_grid self c /\ head (cable self) <> Some c /\ c <> (1, height self - 2).

(** The sets the growth phase of [_generate_correlated_obstacles] can
    reach from its seeds: one new cell at a time, next to a cell already
    there, inside the grid and off the start of the trail. *)
Inductive grown (self : Game) (seeds : gset Cell) : gset Cell -> Prop :=
| grown_seeds : grown self seeds seeds
| grown_add s existing new_pos :
    grown self seeds s ->
    existing ∈ s ->
    adjacent existing new_pos ->
    in_grid self new_pos ->
    head (cable self) <> Some new_pos ->
    new_pos ∉ s ->
    grown self seeds ({[new_pos]} ∪ s).

(** What one pass of the loop body does, once the heading [d] the
    obstacle moves along is known. *)
Definition moved (self : Game) (obs : Cell) (d : Z * Z)
    (st st' : Moving) : Prop :=
  let '(dirs, new_obstacles, new_directions) := st in
  let '(dirs', new_obstacles', new_directions') := st' in
  let new_pos := (obs.1 + d.1, obs.2 + d.2) in
  (forall k, k <> obs -> dirs' !! k = dirs !! k) /\
  ((accepts self new_pos = true /\
    new_obstacles' = {[new_pos]} ∪ new_obstacles /\
    new_directions' = <[new_pos := d]> new_directions)
   \/ (accepts self new_pos = false /\
       new_obstacles' = {[obs]} ∪ new_obstacles /\
       exists d', is_heading d' /\
         new_directions' = <[obs := d']> new_directions /\
         dirs' !! obs = Some d')).

(** What the whole loop of [_update_obstacles] has done to the obstacles
    [l] it walked over, from the state [st] it started in. *)
Definition walked (self : Game) (l : list Cell) (st st' : Moving) : Prop :=
  let '(dirs, new_obstacles, new_directions) := st in
  let '(_, new_obstacles', new_directions') := st' in
  (dom new_directions = new_obstacles -> dom new_directions' = new_obstacles')
  /\ (size new_obstacles' <= size new_obstacles + length l)%nat
  /\ (forall c, c ∈ new_obstacles' ->
        c ∈ new_obstacles \/ c ∈ l \/ accepts self c = true)
  /\ (forall obs, obs ∈ l ->
        exists d, (dirs !! obs = Some d \/ is_heading d) /\
          let new_pos := (obs.1 + d.1, obs.2 + d.2) in
          if accepts self new_pos then new_pos ∈ new_obstacles'
          else obs ∈ new_obstacles').










(** The cell [update] proposes as the next head, and what makes it end
    the game as lost: [obstacles'] is the obstacle set after this tick's
    [_update_obstacles]. *)
Definition proposed_head (self : Game) (head : Cell) : Cell :=
  (head.1 + (value (direction self)).1, head.2 + (value (direction self)).2).

Definition unsafe (self : Game) (obstacles' : gset Cell) (new_head : Cell)
  : Prop :=
  ~ in_grid self new_head \/ new_head ∈ cable self \/ new_head ∈ obstacles'.

(** What every state of a session satisfies and [update] relies on: a
    trail with a head, and a heading for every obstacle. *)
Definition well_formed (self : Game) : Prop :=
  cable self <> [] /\ obstacles self ⊆ dom (obstacle_directions self).

(** Two sessions on a 5 x 5 grid: one whose two obstacles head for the
    same cell, one with an obstacle at the edge of the interior band
    heading outward. *)
Definition merge_game : Game :=
  mkGame 5 5 [(1, 3)] RIGHT
         ({[(1, 1)]} ∪ {[(3, 1)]})
         (<[(1, 1) := (1, 0)]> (<[(3, 1) := (-1, 0)]> ∅))
         (4, 4) true.

Definition edge_game : Game :=
  mkGame 5 5 [(1, 3)] RIGHT {[(1, 1)]} (<[(1, 1) := (-1, 0)]> ∅) (4, 4) true.

(** A game of 2^54 + 2 columns and 3 rows without obstacles, its trail
    at the start (1, 1), and draws that pick the cell (2^53 + 2, 1). *)
Definition wide_game : Game := fresh (2 ^ 54 + 2) 3.

Definition wide_world : World := world_of [2 ^ 53 + 2; 1]%N 0%N.

(** A 5 x 5 session without obstacles, the trail starting in the
    middle. *)
Definition corridor_game : Game :=
  mkGame 5 5 [(2, 2)] RIGHT ∅ ∅ (0, 0) true.

(** A world whose every [random.random()] is 0.5. *)
Definition calm : World := world_of [] (2 ^ 52)%N.

(** A 10 x 10 session with four obstacles: the draws it starts from, the
    state [__init__] builds from them, and the state after an Up key and
    one tick. *)
Definition session_world : World :=
  world_of [3; 6; 0; 2; 0; 5; 1; 7; 2; 1; 0; 3; 1; 4; 2; 6; 1; 2; 3; 0; 8; 2;
            7; 7; 3; 3]%N (2 ^ 52)%N.

Definition session_start : Game :=
  mkGame 10 10 [(1, 8)] RIGHT
         (list_to_set [(3, 6); (1, 6); (2, 7); (4, 5)])
         (list_to_map [((3, 6), (1, 0)); ((1, 6), (0, -1));
                       ((2, 7), (0, 1)); ((4, 5), (-1, 0))])
         (1, 2) true.

Definition session_next : Game :=
  mkGame 10 10 [(1, 8); (1, 7)] UP
         (list_to_set [(4, 6); (1, 5); (2, 8); (3, 5)])
         (list_to_map [((4, 6), (1, 0)); ((1, 5), (0, -1));
                       ((2, 8), (0, 1)); ((3, 5), (-1, 0))])
         (1, 2) true.

(** [merge_game] after its obstacles have met, and one tick later. *)
Definition merged_game : Game :=
  mkGame 5 5 [(1, 3)] RIGHT {[(2, 1)]} (<[(2, 1) := (1, 0)]> ∅) (4, 4) true.

Definition merged_next : Game :=
  mkGame 5 5 [(1, 3); (2, 3)] RIGHT {[(2, 1)]} (<[(2, 1) := (1, 0)]> ∅)
         (4, 4) true.

(** The phase a tick ends in, from the [running] flag and what the tick
    played. *)
Inductive Phase := Active | Won | Lost.

Definition phase_after (self' : Game) (played : list Effect) : option Phase :=
  if running self' then Some Active
  else if bool_decide (FailSound ∈ played) then Some Lost
  else if bool_decide (SuccessSound ∈ played) then Some Won
  else None.

End CableGame.

(** ** archive/cable-game-v5.py: the Game-of-Life variant *)

Module LifeGame.

Record Game := mkGame {
  width : Z;
  height : Z;
  cable : list Cell;
  direction : Direction;
  obstacles : gset Cell;
  outlet : Cell;
  running : bool;
  update_counter : Z;
  life_update_frequency : Z
}.

Definition set_obstacles (self : Game) (o : gset Cell) : Game :=
  mkGame (width self) (height self) (cable self) (direction self) o
         (outlet self) (running self) (update_counter self)
         (life_update_frequency self).

(** What the loops of [_generate_random_soup] carry: [soup], and the local
    variables [new_x, new_y], which have no value until the first
    assignment. *)
Definition Soup : Type := gset Cell * option Cell.

(** The body of the inner loop of [_generate_random_soup]. *)
Definition soup_cell (self : Game) (x y dx : Z) (st : Soup) (dy : Z) : M Soup :=
  let '(soup, new) := st in
  r <- random_random ;;
  let new := if lt_0_5 r then Some (x + dx, y + dy) else new in
  match new with
  | None => raise UnboundLocalError
  | Some (new_x, new_y) =>
      if (0 <=? new_x) && (new_x <? width self)
         && (0 <=? new_y) && (new_y <? height self)
      then ret ({[(new_x, new_y)]} ∪ soup, new)
      else ret (soup, new)
  end.

(** [_generate_random_soup] *)
Definition _generate_random_soup (self : Game) (center : Cell) (size : Z)
  : M (gset Cell) :=
  let '(x, y) := center in
  st <- for_each (range (- size) (size + 1)) (fun st dx =>
          for_each (range (- size) (size + 1)) (soup_cell self x y dx) st)
        (∅, None) ;;
  ret st.1.

(** [_get_neighbors_count] *)
Definition _get_neighbors_count (self : Game) (pos : Cell) : Z :=
  fold_left (fun count dx =>
    fold_left (fun count dy =>
      if (dx =? 0) && (dy =? 0) then count
      else
        let neighbor := (pos.1 + dx, pos.2 + dy) in
        if (0 <=? neighbor.1) && (neighbor.1 <? width self)
           && (0 <=? neighbor.2) && (neighbor.2 <? height self)
           && in_set neighbor (obstacles self)
        then count + 1
        else count) [-1; 0; 1] count) [-1; 0; 1] 0.

(** The body of the inner loop of [_update_life]. *)
Definition life_cell (self : Game) (x : Z) (new_obstacles : gset Cell) (y : Z)
  : gset Cell :=
  let pos := (x, y) in
  if in_list pos (cable self) || cell_eqb pos (outlet self) then new_obstacles
  else
    let neighbors := _get_neighbors_count self pos in
    if in_set pos (obstacles self) then
      if bool_decide (neighbors ∈ [2; 3]) then {[pos]} ∪ new_obstacles
      else new_obstacles
    else
      if neighbors =? 3 then {[pos]} ∪ new_obstacles
      else new_obstacles.

(** [_update_life] *)
Definition _update_life (self : Game) : Game :=
  let new_obstacles :=
    fold_left (fun new_obstacles x =>
      fold_left (life_cell self x) (range 0 (height self)) new_obstacles)
      (range 0 (width self)) ∅ in
  set_obstacles self new_obstacles.

(** The eight cells around a cell, and how many of them are obstacles
    inside the grid. *)
Definition eight_neighbors (pos : Cell) : list Cell :=
  [(pos.1 - 1, pos.2 - 1); (pos.1 - 1, pos.2); (pos.1 - 1, pos.2 + 1);
   (pos.1, pos.2 - 1); (pos.1, pos.2 + 1);
   (pos.1 + 1, pos.2 - 1); (pos.1 + 1, pos.2); (pos.1 + 1, pos.2 + 1)].

Definition in_grid (self : Game) (c : Cell) : Prop :=
  0 <= c.1 < width self /\ 0 <= c.2 < height self.

#[global] Instance in_grid_dec self c : Decision (in_grid self c).
Proof. unfold in_grid. apply _. Defined.

Definition occupied_neighbors (self : Game) (pos : Cell) : nat :=
  length (filter (fun c => in_grid self c /\ c ∈ obstacles self)
                 (eight_neighbors pos)).

(** The rule a cell is judged by: what makes it an obstacle of the next
    generation. *)
Definition alive_next (self : Game) (c : Cell) : Prop :=
  (c ∉ cable self) /\ c <> outlet self /\
  ((c ∈ obstacles self /\
    (occupied_neighbors self c = 2%nat \/ occupied_neighbors self c = 3%nat))
   \/ ((c ∉ obstacles self) /\ occupied_neighbors self c = 3%nat)).

(** A blinker in the middle of a 5 x 5 grid. *)
Definition blinker_game : Game :=
  mkGame 5 5 [(0, 0)] RIGHT ({[(1, 2)]} ∪ {[(2, 2)]} ∪ {[(3, 2)]}) (4, 4)
         true 0 2.

(** A 5 x 5 session of the Game-of-Life variant. *)
Definition small_game : Game :=
  mkGame 5 5 [(0, 0)] RIGHT ∅ (4, 4) true 0 2.

End LifeGame.

(** ** cable-game.py: drawing, the game loop and what a session keeps *)

Module CableLoop.
Import CableGame.

(** What [draw] hands to pygame: rectangles and RGB colours. *)
Definition Color : Type := Z * Z * Z.

Record Rect := mkRect {
  rect_left : Z;
  rect_top : Z;
  rect_width : Z;
  rect_height : Z
}.

(** [self.cell_size], set to 20 by [__init__] and never written again. *)
Definition cell_size : Z := 20.

(** [pygame.Rect(c[0] * cell_size, c[1] * cell_size, cell_size, cell_size)] *)
Definition cell_rect (c : Cell) : Rect :=
  mkRect (c.1 * cell_size) (c.2 * cell_size) cell_size cell_size.

(** The colour [draw] gives an obstacle with heading [(dx, dy)]. *)
Definition obstacle_color (d : Z * Z) : Color :=
  let '(dx, dy) := d in
  if dx >? 0 then (160, 128, 128)
  else if dx <? 0 then (128, 160, 128)
  else if dy >? 0 then (128, 128, 160)
  else if dy <? 0 then (160, 160, 128)
  else (128, 128, 128).

(** The neighbour [c] as the loop body of [_get_valid_neighbors] keeps or
    drops it, [c0] being the start of the trail. *)
Definition kept (self : Game) (c0 c : Cell) : list Cell :=
  if (0 <=? c.1) && (c.1 <? width self) && (0 <=? c.2) && (c.2 <? height self)
     && negb (cell_eqb c c0)
  then [c] else [].

Definition is_quit (ev : Event) : bool :=
  match ev with
  | QUIT => true
  | _ => false
  end.

Section SetOrder.

Variable set_iter : gset Cell -> list Cell.

(** [draw]: the rectangles filled on the cleared screen, in the order of
    the source: the obstacles, the trail, the outlet. *)
Definition draw (self : Game) : M (list (Rect * Color)) :=
  obstacle_rects <-
    for_each (set_iter (obstacles self)) (fun drawn obstacle =>
      d <- getitem (obstacle_directions self) obstacle ;;
      ret (drawn ++ [(cell_rect obstacle, obstacle_color d)])) [] ;;
  ret (obstacle_rects
       ++ map (fun segment => (cell_rect segment, (0, 255, 0))) (cable self)
       ++ [(cell_rect (outlet self), (255, 0, 0))]).

(** [run]: [frames] holds what [pygame.event.get()] delivers on each pass
    of the loop (nothing once the list is used up); the clock is left
    out. *)
Fixpoint run (fuel : nat) (self : Game) (frames : list (list Event)) : M Game :=
  match fuel with
  | O => out_of_fuel
  | S fuel' =>
      if running self then
        let self := handle_input self (hd [] frames) in
        self <- update set_iter self ;;
        _ <- draw self ;;
        run fuel' self (tl frames)
      else ret self
  end.

End SetOrder.

(** A trail whose every cell is one step of a heading away from the cell
    before it. *)
Fixpoint path (l : list Cell) : Prop :=
  match l with
  | [] => True
  | a :: l' =>
      match l' with
      | [] => True
      | b :: _ =>
          (exists d : Direction, b = (a.1 + (value d).1, a.2 + (value d).2))
          /\ path l'
      end
  end.

(** What [__init__] establishes and every input and tick keeps. *)
Definition session_inv (self : Game) : Prop :=
  head (cable self) = Some (1, height self - 2)
  /\ NoDup (cable self)
  /\ path (cable self)
  /\ (forall c, c ∈ tail (cable self) -> in_grid self c)
  /\ dom (obstacle_directions self) = obstacles self
  /\ (forall c d, obstacle_directions self !! c = Some d -> is_heading d)
  /\ (forall c, c ∈ obstacles self ->
        in_grid self c /\ (c ∉ cable self) /\ c <> outlet self)
  /\ in_grid self (outlet self)
  /\ (outlet self ∈ cable self -> running self = false).

(** The number of cells of the grid. *)
Definition grid_size (self : Game) : nat :=
  (Z.to_nat (width self) * Z.to_nat (height self))%nat.

(** [session_next] after a Left key, a Down key and the tick that runs
    the head back into the trail. *)
Definition session_reversed : Game :=
  mkGame 10 10 [(1, 8); (1, 7)] DOWN
         (list_to_set [(5, 6); (1, 4); (2, 5); (2, 8)])
         (list_to_map [((5, 6), (1, 0)); ((1, 4), (0, -1));
                       ((2, 5), (-1, 0)); ((2, 8), (0, 1))])
         (1, 2) false.

(** A 3 x 3 session whose four corners are obstacles: no cell is left for
    the outlet. *)
Definition corner_game : Game :=
  mkGame 3 3 [(1, 1)] RIGHT
         (list_to_set [(0, 0); (0, 2); (2, 0); (2, 2)]) ∅ (0, 0) true.

End CableLoop.

(** ** archive/cable-game-v5.py: patterns, the tick and the drawing *)

Module LifeLoop.
Import LifeGame.

Definition set_cable (self : Game) (c : list Cell) : Game :=
  mkGame (width self) (height self) c (direction self) (obstacles self)
         (outlet self) (running self) (update_counter self)
         (life_update_frequency self).

Definition set_running (self : Game) (b : bool) : Game :=
  mkGame (width self) (height self) (cable self) (direction self)
         (obstacles self) (outlet self) b (update_counter self)
         (life_update_frequency self).

Definition set_update_counter (self : Game) (n : Z) : Game :=
  mkGame (width self) (height self) (cable self) (direction self)
         (obstacles self) (outlet self) (running self) n
         (life_update_frequency self).

(** [min(...)]: ValueError on an empty sequence. *)
Definition py_min (l : list Z) : M Z :=
  match l with
  | [] => raise ValueError
  | x :: l' => ret (fold_left Z.min l' x)
  end.

(** One pass of the loop of [_rotate_pattern]. *)
Definition quarter_turn (pattern : list (Z * Z)) : list (Z * Z) :=
  map (fun p => (p.2, - p.1)) pattern.

(** [_rotate_pattern] *)
Definition _rotate_pattern (pattern : list (Z * Z)) (rotations : Z)
  : M (list (Z * Z)) :=
  let pattern :=
    fold_left (fun pattern _ => quarter_turn pattern) (range 0 rotations)
              pattern in
  min_x <- py_min (map fst pattern) ;;
  min_y <- py_min (map snd pattern) ;;
  ret (map (fun p => (p.1 - min_x, p.2 - min_y)) pattern).

(** The two halves of [_rotate_pattern]: the pattern after the loop, and
    a pattern moved so that [t] comes to lie on (0, 0). *)
Definition turned (pattern : list (Z * Z)) (rotations : Z) : list (Z * Z) :=
  fold_left (fun pattern _ => quarter_turn pattern) (range 0 rotations) pattern.

Definition shifted (t : Z * Z) (pattern : list (Z * Z)) : list (Z * Z) :=
  map (fun p => (p.1 - t.1, p.2 - t.2)) pattern.

(** The end of [_rotate_pattern]: the pattern moved so that its least
    coordinates become 0. *)
Definition normalized (pattern : list (Z * Z)) : M (list (Z * Z)) :=
  min_x <- py_min (map fst pattern) ;;
  min_y <- py_min (map snd pattern) ;;
  ret (shifted (min_x, min_y) pattern).

(** [_place_pattern] *)
Definition _place_pattern (self : Game) (pattern : list (Z * Z)) (offset : Z * Z)
  : gset Cell :=
  fold_left (fun placed_cells p =>
    let new_x := p.1 + offset.1 in
    let new_y := p.2 + offset.2 in
    if (0 <=? new_x) && (new_x <? width self)
       && (0 <=? new_y) && (new_y <? height self)
       && negb (in_list (new_x, new_y) (cable self))
    then {[(new_x, new_y)]} ∪ placed_cells
    else placed_cells) pattern ∅.

(** [update] *)
Definition update (self : Game) : M Game :=
  let self := set_update_counter self (update_counter self + 1) in
  let self :=
    if update_counter self >=? life_update_frequency self
    then set_update_counter (_update_life self) 0
    else self in
  head <- last_item (cable self) ;;
  let '(dx, dy) := value (direction self) in
  let new_head := (head.1 + dx, head.2 + dy) in
  if (new_head.1 <? 0) || (new_head.1 >=? width self)
     || (new_head.2 <? 0) || (new_head.2 >=? height self)
     || in_list new_head (cable self)
     || in_set new_head (obstacles self)
  then
    emit FailSound ;;;
    ret (set_running self false)
  else
    let self := set_cable self (cable self ++ [new_head]) in
    if cell_eqb new_head (outlet self) then
      emit SuccessSound ;;;
      emit YouWinPrinted ;;;
      ret (set_running self false)
    else ret self.

(** The brightness [draw] gives an obstacle. *)
Definition intensity (self : Game) (obstacle : Cell) : Z :=
  Z.min (100 + _get_neighbors_count self obstacle * 20) 255.

(** What holds of the loop state once [new_x, new_y] has a value. *)
Definition bound (self : Game) (center : Cell) (size : Z) (st : Soup) : Prop :=
  (exists c, st.2 = Some c
     /\ Z.abs (c.1 - center.1) <= size /\ Z.abs (c.2 - center.2) <= size)
  /\ (forall c, c ∈ st.1 ->
        in_grid self c
        /\ Z.abs (c.1 - center.1) <= size /\ Z.abs (c.2 - center.2) <= size)
  /\ (in_grid self (center.1 - size, center.2 - size) ->
      (center.1 - size, center.2 - size) ∈ st.1).

(** No obstacle lies on the trail. *)
Definition trail_clear (self : Game) : Prop :=
  forall c, c ∈ obstacles self -> c ∉ cable self.

End LifeLoop.

(** * Properties *)

(** ** The monad and the random primitives *)

Section MonadFacts.

Context {A B : Type}.

Lemma bind_Ok (c : M A) (k : A -> M B) w b w' :
  bind c k w = Ok (b, w') <->
  exists a w1, c w = Ok (a, w1) /\ k a w1 = Ok (b, w').
Proof.
  unfold bind. split.
  - destruct (c w) as [[a w1]| |]; [|discriminate..]. intros Hk. by exists a, w1.
  - intros (a & w1 & -> & Hk). exact Hk.
Qed.

Lemma bind_Raise_l (c : M A) (k : A -> M B) w e :
  c w = Raise e -> bind c k w = Raise e.
Proof. unfold bind. by intros ->. Qed.

Lemma bind_Ok_l (c : M A) (k : A -> M B) w a w1 :
  c w = Ok (a, w1) -> bind c k w = k a w1.
Proof. unfold bind. by intros ->. Qed.

End MonadFacts.

Lemma random_random_eq w : random_random w = Ok (next_random w, rest w).
Proof. reflexivity. Qed.

(** [random.choice] returns an item of its argument, and returns whenever
    the argument is not empty. *)
Lemma nth_mod_elem {A} (l : list A) (d : A) (n : N) :
  l <> [] -> nth (N.to_nat (n mod N.of_nat (length l))) l d ∈ l.
Proof.
  intros Hl. apply list_elem_of_In, nth_In.
  assert (length l <> 0%nat) by (by destruct l).
  pose proof (N.mod_upper_bound n (N.of_nat (length l))). lia.
Qed.

Lemma random_choice_elem {A} (l : list A) w a w' :
  random_choice l w = Ok (a, w') -> a ∈ l.
Proof.
  destruct l as [|x l]; [discriminate|]. intros H.
  assert (a = nth (N.to_nat (tape w 0%nat mod N.of_nat (length (x :: l))))
                  (x :: l) x)
    as -> by (unfold random_choice, bind, draw, ret in H; congruence).
  by apply nth_mod_elem.
Qed.

Lemma random_choice_returns {A} (l : list A) w :
  l <> [] -> exists a w', random_choice l w = Ok (a, w').
Proof. destruct l; [done|]. intros _. unfold random_choice, bind, draw, ret. eauto. Qed.

(** [random.randint(a, b)] returns an integer of [a..b]. *)
Lemma random_randint_range a b w r w' :
  random_randint a b w = Ok (r, w') -> a <= r <= b.
Proof.
  unfold random_randint. destruct (Z.ltb_spec b a); [discriminate|].
  unfold bind, draw, ret. intros [= <- _].
  pose proof (Z.mod_pos_bound (Z.of_N (tape w 0%nat)) (b - a + 1)). lia.
Qed.

(** A loop invariant for [for_each]. *)
Lemma for_each_inv {A S} (P : S -> Prop) (l : list A) (body : S -> A -> M S) :
  (forall s x w s' w', x ∈ l -> P s -> body s x w = Ok (s', w') -> P s') ->
  forall acc w acc' w',
    P acc -> for_each l body acc w = Ok (acc', w') -> P acc'.
Proof.
  induction l as [|x l IH]; intros Hb acc w acc' w' Hacc; simpl.
  - by intros [= <- _].
  - intros (s1 & w1 & H1 & H2)%bind_Ok.
    eapply IH; [| |exact H2].
    + intros. eapply Hb; [|done..]. by right.
    + eapply Hb; [|done..]. by left.
Qed.

(** A loop whose body returns on every item returns. *)
Lemma for_each_returns {A S} (P : S -> Prop) (l : list A) (body : S -> A -> M S) :
  (forall s x w, x ∈ l -> P s -> exists s' w', body s x w = Ok (s', w') /\ P s') ->
  forall acc w, P acc -> exists acc' w', for_each l body acc w = Ok (acc', w').
Proof.
  induction l as [|x l IH]; intros Hb acc w Hacc; simpl.
  - unfold ret. eauto.
  - destruct (Hb acc x w) as (s1 & w1 & H1 & HP); [by left|done|].
    rewrite (bind_Ok_l _ _ _ _ _ H1).
    apply IH; [|done]. intros. apply Hb; [by right|done].
Qed.

(** ** The Game-of-Life step *)

Module LifeGameFacts.
Import LifeGame.

Section Life.

Variable self : Game.

(** The bounds-and-membership test of [_get_neighbors_count]. *)
Lemma occupied_test (c : Cell) :
  (0 <=? c.1) && (c.1 <? width self) && (0 <=? c.2) && (c.2 <? height self)
    && in_set c (obstacles self)
  = bool_decide (in_grid self c /\ c ∈ obstacles self).
Proof.
  unfold in_grid, in_set. apply eq_true_iff_eq.
  rewrite !andb_true_iff, !bool_decide_eq_true, !Z.leb_le, !Z.ltb_lt. tauto.
Qed.

Lemma count_one (P : Cell -> Prop) `{!forall c, Decision (P c)} c l :
  length (filter P (c :: l))
  = (Nat.b2n (bool_decide (P c)) + length (filter P l))%nat.
Proof. rewrite filter_cons. by destruct (decide (P c)); simplify_eq/=;
  [rewrite bool_decide_eq_true_2|rewrite bool_decide_eq_false_2]. Qed.

(** [_get_neighbors_count] counts the obstacles among the eight cells
    around [pos] that lie inside the grid. *)
Lemma get_neighbors_count_spec pos :
  _get_neighbors_count self pos = Z.of_nat (occupied_neighbors self pos).
Proof.
  unfold _get_neighbors_count, occupied_neighbors, eight_neighbors.
  cbn [fold_left Z.eqb andb].
  rewrite !occupied_test, !count_one. cbn [filter length].
  replace (pos.1 + -1) with (pos.1 - 1) by lia.
  replace (pos.2 + -1) with (pos.2 - 1) by lia.
  replace (pos.1 + 0) with (pos.1) by lia.
  replace (pos.2 + 0) with (pos.2) by lia.
  repeat match goal with
         | |- context [bool_decide ?P] => destruct (bool_decide P)
         end; reflexivity.
Qed.

Lemma two_or_three (n : nat) :
  Z.of_nat n ∈ [2; 3] <-> n = 2%nat \/ n = 3%nat.
Proof. rewrite elem_of_cons, list_elem_of_singleton. lia. Qed.

Lemma life_cell_spec x y acc c :
  c ∈ life_cell self x acc y <-> c ∈ acc \/ (c = (x, y) /\ alive_next self c).
Proof.
  unfold life_cell, alive_next, in_list, in_set, cell_eqb.
  rewrite get_neighbors_count_spec.
  destruct (decide ((x, y) ∈ cable self)) as [Hc|Hc].
  { rewrite (bool_decide_eq_true_2 _ Hc). simpl. naive_solver. }
  rewrite (bool_decide_eq_false_2 _ Hc).
  destruct (decide ((x, y) = outlet self)) as [Ho|Ho].
  { rewrite (bool_decide_eq_true_2 _ Ho). simpl. naive_solver. }
  rewrite (bool_decide_eq_false_2 _ Ho). simpl.
  destruct (decide ((x, y) ∈ obstacles self)) as [Hin|Hin].
  - rewrite (bool_decide_eq_true_2 _ Hin).
    case_bool_decide as H23; rewrite two_or_three in H23;
      rewrite ?elem_of_union, ?elem_of_singleton; naive_solver.
  - rewrite (bool_decide_eq_false_2 _ Hin).
    destruct (Z.eqb_spec (Z.of_nat (occupied_neighbors self (x, y))) 3) as [H3|H3];
      rewrite ?elem_of_union, ?elem_of_singleton; naive_solver lia.
Qed.

Lemma life_row_spec x ys acc c :
  c ∈ fold_left (life_cell self x) ys acc
  <-> c ∈ acc \/ (c.1 = x /\ c.2 ∈ ys /\ alive_next self c).
Proof.
  revert acc. induction ys as [|y ys IH]; intros acc; simpl.
  - rewrite elem_of_nil. tauto.
  - rewrite IH, life_cell_spec, elem_of_cons. destruct c as [cx cy]; simpl.
    intuition (simplify_eq/=; eauto 10).
Qed.

Lemma life_grid_spec xs ys acc c :
  c ∈ fold_left (fun acc x => fold_left (life_cell self x) ys acc) xs acc
  <-> c ∈ acc \/ (c.1 ∈ xs /\ c.2 ∈ ys /\ alive_next self c).
Proof.
  revert acc. induction xs as [|x xs IH]; intros acc; simpl.
  - rewrite elem_of_nil. tauto.
  - rewrite IH, life_row_spec, elem_of_cons.
    intuition (simplify_eq/=; eauto 10).
Qed.

Lemma elem_of_range a b x : x ∈ range a b <-> a <= x < b.
Proof. unfold range. rewrite elem_of_seqZ. lia. Qed.

End Life.

(** C3: after [_update_life], a cell is an obstacle exactly when it is a
    grid cell off the trail, other than the outlet, that either was an
    obstacle with two or three occupied neighbours or was empty with
    exactly three, the neighbours being counted in the obstacle set from
    before the step and only inside the grid.  So no trail cell and no
    outlet is ever in the next obstacle set, and nothing else of the game
    changes. *)
Theorem update_life_rule (self : Game) (c : Cell) :
  (c ∈ obstacles (_update_life self) <->
   in_grid self c /\ (c ∉ cable self) /\ c <> outlet self /\
   ((c ∈ obstacles self /\
     (occupied_neighbors self c = 2%nat \/ occupied_neighbors self c = 3%nat))
    \/ ((c ∉ obstacles self) /\ occupied_neighbors self c = 3%nat)))
  /\ _update_life self = set_obstacles self (obstacles (_update_life self)).
Proof.
  split; [|done]. unfold _update_life. simpl.
  rewrite life_grid_spec, !elem_of_range, elem_of_empty.
  unfold alive_next, in_grid. tauto.
Qed.

(** The blinker flips to a column and back. *)
Example blinker_period_two :
  obstacles (_update_life blinker_game) = {[(2, 1)]} ∪ {[(2, 2)]} ∪ {[(2, 3)]}
  /\ obstacles (_update_life (_update_life blinker_game))
     = obstacles blinker_game.
Proof. split; vm_compute; reflexivity. Qed.

End LifeGameFacts.

(** ** The random-soup generator *)

Module SoupFacts.
Import LifeGame.

Lemma range_cons a b : a < b -> range a b = a :: range (a + 1) b.
Proof.
  intros Hab. unfold range. rewrite seqZ_cons by lia.
  f_equal. f_equal; lia.
Qed.

Lemma soup_cell_unbound self x y dx dy soup w :
  lt_0_5 (next_random w) = false ->
  soup_cell self x y dx (soup, None) dy w = Raise UnboundLocalError.
Proof.
  intros Hr. unfold soup_cell.
  rewrite (bind_Ok_l _ _ _ _ _ (random_random_eq w)). by rewrite Hr.
Qed.

Lemma soup_bounds_test self (c : Cell) :
  (0 <=? c.1) && (c.1 <? width self) && (0 <=? c.2) && (c.2 <? height self)
  = bool_decide (in_grid self c).
Proof.
  unfold in_grid. apply eq_true_iff_eq.
  rewrite !andb_true_iff, !bool_decide_eq_true, !Z.leb_le, !Z.ltb_lt. tauto.
Qed.

Lemma soup_cell_stale self x y dx dy soup c w :
  lt_0_5 (next_random w) = false ->
  soup_cell self x y dx (soup, Some c) dy w
  = Ok (if bool_decide (in_grid self c) then {[c]} ∪ soup else soup,
        Some c, rest w).
Proof.
  intros Hr. unfold soup_cell.
  rewrite (bind_Ok_l _ _ _ _ _ (random_random_eq w)). rewrite Hr.
  destruct c as [cx cy]. rewrite <- soup_bounds_test. simpl.
  by destruct (_ && _).
Qed.

Lemma random_soup_unbound self center size w :
  0 <= size ->
  lt_0_5 (next_random w) = false ->
  _generate_random_soup self center size w = Raise UnboundLocalError.
Proof.
  intros Hsize Hr. unfold _generate_random_soup. destruct center as [x y].
  rewrite (range_cons (- size)) by lia. cbn [for_each].
  do 3 apply bind_Raise_l. by apply soup_cell_unbound.
Qed.

(** C8: in [_generate_random_soup] the cell [(new_x, new_y)] is assigned
    only when the draw is below 0.5, while the bounds test and the
    insertion run on every iteration.  When the first draw is at least 0.5
    the variable is read before any assignment and the call raises; an
    iteration that skips the branch while the variable holds a cell [c] of
    an earlier iteration tests and adds [c], whatever its own offset
    [(dx, dy)]; and there are draws for which a whole run visits nine
    offsets and yields the single cell of its first iteration. *)
Theorem random_soup_stale_cell
    (self : Game) (center : Cell) (size x y dx dy : Z)
    (soup : gset Cell) (c : Cell) (w : World) :
  0 <= size ->
  lt_0_5 (next_random w) = false ->
  _generate_random_soup self center size w = Raise UnboundLocalError
  /\ soup_cell self x y dx (soup, Some c) dy w
     = Ok (if bool_decide (in_grid self c) then {[c]} ∪ soup else soup,
           Some c, rest w)
  /\ value_of (_generate_random_soup small_game (2, 2) 1
                 (world_of [0%N] (2 ^ 52)%N))
     = Ok {[(1, 1)]}.
Proof.
  intros Hsize Hr. split_and!.
  - by apply random_soup_unbound.
  - by apply soup_cell_stale.
  - vm_compute. reflexivity.
Qed.

Lemma random_soup_stale_cell_witness :
  _generate_random_soup small_game (2, 2) 1 (world_of [] (2 ^ 52)%N)
  = Raise UnboundLocalError
  /\ soup_cell small_game 2 2 0 ({[(1, 1)]}, Some (1, 1)) 1
       (world_of [] (2 ^ 52)%N)
     = Ok (if bool_decide (in_grid small_game (1, 1))
           then {[(1, 1)]} ∪ {[(1, 1)]} else {[(1, 1)]},
           Some (1, 1), rest (world_of [] (2 ^ 52)%N))
  /\ value_of (_generate_random_soup small_game (2, 2) 1
                 (world_of [0%N] (2 ^ 52)%N))
     = Ok {[(1, 1)]}.
Proof.
  apply (random_soup_stale_cell small_game (2, 2) 1 2 2 0 1 {[(1, 1)]} (1, 1)
           (world_of [] (2 ^ 52)%N)); [lia | reflexivity].
Defined.

End SoupFacts.

(** ** The heading controller *)

Module HeadingFacts.
Import CableGame.

Lemma process_direction_change_direction self key :
  _process_direction_change self key
  = set_direction self (direction (_process_direction_change self key)).
Proof.
  unfold _process_direction_change.
  destruct (value (direction self)) as [dx dy].
  by repeat case_match; destruct self.
Qed.

(** C5: a request for the exact opposite of the current heading leaves the
    heading as it is (so does a request for the current heading), and a
    request perpendicular to it replaces the heading at once; with
    heading Right, Left is refused. *)
Theorem no_instant_reversal (self : Game) (requested : Direction) :
  direction (_process_direction_change self (key_of (opposite (direction self))))
  = direction self
  /\ direction (_process_direction_change self (key_of requested))
     = (if perpendicular (direction self) requested
        then requested else direction self)
  /\ perpendicular (direction self) (opposite (direction self)) = false
  /\ direction (_process_direction_change (set_direction self RIGHT) (key_of LEFT))
     = RIGHT.
Proof.
  destruct self as [wd ht cb d obs dirs out run]. simpl.
  split_and!; [by destruct d | by destruct d, requested | by destruct d | done].
Qed.

End HeadingFacts.

(** ** The moving obstacles *)

Module ObstacleFacts.
Import CableGame.

Lemma accepts_spec self p :
  accepts self p = true <->
  in_band self p /\ (p ∉ cable self) /\ p <> outlet self.
Proof.
  unfold accepts, in_band, in_list, cell_eqb.
  rewrite !andb_true_iff, !negb_true_iff, !bool_decide_eq_false, !Z.ltb_lt.
  intuition lia.
Qed.

Lemma random_direction_eq w :
  exists d, is_heading d /\ _random_direction w = Ok (d, rest w).
Proof.
  unfold _random_direction.
  destruct (random_choice_returns [(0, 1); (0, -1); (1, 0); (-1, 0)] w)
    as (d & w' & Hd); [done|].
  exists d. split; [by eapply random_choice_elem|].
  rewrite Hd. f_equal. f_equal.
  unfold random_choice, bind, draw, ret in Hd. congruence.
Qed.

Lemma getitem_Some {V} (m : gmap Cell V) k v w :
  m !! k = Some v -> getitem m k w = Ok (v, w).
Proof. unfold getitem. by intros ->. Qed.

Lemma getitem_Ok {V} (m : gmap Cell V) k v w w' :
  getitem m k w = Ok (v, w') -> m !! k = Some v /\ w' = w.
Proof. unfold getitem. destruct (m !! k); [|discriminate]. by intros [= -> ->]. Qed.

Lemma move_obstacle_from self dirs new_obstacles new_directions obs d w :
  dirs !! obs = Some d ->
  exists st' w',
    (d' <- getitem dirs obs ;;
     let new_pos := (obs.1 + d'.1, obs.2 + d'.2) in
     if accepts self new_pos then
       d'' <- getitem dirs obs ;;
       ret (dirs, {[new_pos]} ∪ new_obstacles, <[new_pos := d'']> new_directions)
     else
       d'' <- _random_direction ;;
       let dirs := <[obs := d'']> dirs in
       d3 <- getitem dirs obs ;;
       ret (dirs, {[obs]} ∪ new_obstacles, <[obs := d3]> new_directions)) w
    = Ok (st', w')
    /\ trace w' = trace w
    /\ moved self obs d (dirs, new_obstacles, new_directions) st'.
Proof.
  intros Hd. rewrite (bind_Ok_l _ _ _ _ _ (getitem_Some _ _ _ w Hd)).
  cbv zeta. destruct (accepts self _) eqn:Hacc.
  - rewrite (bind_Ok_l _ _ _ _ _ (getitem_Some _ _ _ w Hd)).
    eexists (_, _, _), w. split; [reflexivity|]. split; [done|].
    split; [done|]. left. by rewrite Hacc.
  - destruct (random_direction_eq w) as (d' & Hd' & Hrd).
    rewrite (bind_Ok_l _ _ _ _ _ Hrd).
    rewrite (bind_Ok_l _ _ _ _ _
               (getitem_Some _ _ _ _ (lookup_insert_eq dirs obs d'))).
    eexists (_, _, _), (rest w). split; [reflexivity|]. split; [done|].
    split; [intros k Hk; by rewrite lookup_insert_ne|].
    right. rewrite Hacc. split; [done|]. split; [done|].
    exists d'. by rewrite lookup_insert_eq.
Qed.

(** The loop body returns whenever the obstacle has a heading or gets a
    new one, and moves the obstacle along the heading it then has. *)
Lemma move_obstacle_spec self dirs new_obstacles new_directions obs w :
  lt_0_1 (next_random w) = true \/ is_Some (dirs !! obs) ->
  exists d st' w',
    move_obstacle self (dirs, new_obstacles, new_directions) obs w = Ok (st', w')
    /\ trace w' = trace w
    /\ ((lt_0_1 (next_random w) = false /\ dirs !! obs = Some d)
        \/ (lt_0_1 (next_random w) = true /\ is_heading d))
    /\ moved self obs d (dirs, new_obstacles, new_directions) st'.
Proof.
  intros Hkey. unfold move_obstacle.
  rewrite (bind_Ok_l _ _ _ _ _ (random_random_eq w)).
  destruct (lt_0_1 (next_random w)) eqn:Hroll.
  - destruct (random_direction_eq (rest w)) as (d & Hd & Hrd).
    rewrite (bind_Ok_l _ _ (rest w) (<[obs := d]> dirs) (rest (rest w)))
      by (by rewrite (bind_Ok_l _ _ _ _ _ Hrd)).
    destruct (move_obstacle_from self (<[obs := d]> dirs) new_obstacles
                new_directions obs d (rest (rest w)))
      as ([[dirs' no'] nd'] & w' & Hrun & Htr & Hk & Hmv);
      [apply lookup_insert_eq|].
    exists d, (dirs', no', nd'), w'. split; [exact Hrun|].
    split; [by rewrite Htr|]. split; [by right|].
    split; [|exact Hmv].
    intros k Hne. rewrite Hk by done. by rewrite lookup_insert_ne.
  - destruct Hkey as [|[d Hd]]; [done|].
    rewrite (bind_Ok_l _ _ (rest w) dirs (rest w)) by done.
    destruct (move_obstacle_from self dirs new_obstacles new_directions
                obs d (rest w) Hd) as (st' & w' & Hrun & Htr & Hmv).
    exists d, st', w'. split; [exact Hrun|]. split; [by rewrite Htr|].
    split; [by left|done].
Qed.

Lemma move_obstacle_Ok self st obs w st' w' :
  move_obstacle self st obs w = Ok (st', w') ->
  exists d, trace w' = trace w /\
    (st.1.1 !! obs = Some d \/ is_heading d) /\ moved self obs d st st'.
Proof.
  destruct st as [[dirs no] nd]. intros Hrun.
  assert (lt_0_1 (next_random w) = true \/ is_Some (dirs !! obs)) as Hkey.
  { destruct (lt_0_1 (next_random w)) eqn:Hroll; [by left|right].
    destruct (dirs !! obs) eqn:Hd; [done|exfalso].
    unfold move_obstacle in Hrun.
    rewrite (bind_Ok_l _ _ _ _ _ (random_random_eq w)), Hroll in Hrun.
    rewrite (bind_Ok_l _ _ (rest w) dirs (rest w)) in Hrun by done.
    unfold bind, getitem in Hrun. rewrite Hd in Hrun. discriminate. }
  destruct (move_obstacle_spec self dirs no nd obs w Hkey)
    as (d & st'' & w'' & Hrun' & Htr & Hd & Hmv).
  rewrite Hrun in Hrun'. injection Hrun' as <- <-.
  exists d. split; [done|]. split; [|done]. simpl. naive_solver.
Qed.

Lemma size_add (c : Cell) (s : gset Cell) : (size ({[c]} ∪ s) <= S (size s))%nat.
Proof.
  rewrite size_union_alt, size_singleton.
  pose proof (subseteq_size (s ∖ {[c]}) s). set_solver by lia.
Qed.

(** One more obstacle walked over. *)
Lemma walked_cons self x d l st st1 st' :
  x ∉ l ->
  (st.1.1 !! x = Some d \/ is_heading d) ->
  moved self x d st st1 ->
  walked self l st1 st' ->
  (forall c, c ∈ st1.1.2 -> c ∈ st'.1.2) ->
  walked self (x :: l) st st'.
Proof.
  destruct st as [[dirs no] nd], st1 as [[dirs1 no1] nd1],
    st' as [[dirs' no'] nd'].
  simpl. intros Hx Hd (Hk & Hmv) (Hdom & Hsize & Hfrom & Himg) Hmono.
  pose proof (size_add (x.1 + d.1, x.2 + d.2) no).
  pose proof (size_add x no).
  split_and!.
  - intros Hnd. apply Hdom.
    destruct Hmv as [(_ & -> & ->)|(_ & -> & d' & _ & -> & _)];
      rewrite dom_insert_L; by rewrite Hnd.
  - etrans; [exact Hsize|]. rewrite Nat.add_succ_r.
    change (S ?a) with (S (size no) + length l)%nat.
    apply Nat.add_le_mono_r.
    by destruct Hmv as [(_ & -> & _)|(_ & -> & _)].
  - intros c Hc. destruct (Hfrom c Hc) as [Hc1|[Hc1|Hc1]]; [|set_solver|by auto].
    destruct Hmv as [(Hacc & -> & _)|(_ & -> & _)].
    + apply elem_of_union in Hc1 as [->%elem_of_singleton|]; auto.
    + apply elem_of_union in Hc1 as [->%elem_of_singleton|]; [|by auto].
      right. left. by left.
  - intros obs [->|Hobs]%elem_of_cons.
    + exists d. split; [done|].
      destruct Hmv as [(Hacc & -> & _)|(Hacc & -> & _)]; rewrite Hacc;
        apply Hmono; set_solver.
    + destruct (Himg obs Hobs) as (d1 & Hd1 & Hobs1). exists d1.
      split; [|done]. rewrite <- Hk; [done|]. by intros ->.
Qed.

Lemma for_each_move_mono self l st w st' w' :
  for_each l (move_obstacle self) st w = Ok (st', w') ->
  forall c, c ∈ st.1.2 -> c ∈ st'.1.2.
Proof.
  revert st w. induction l as [|x l IH]; intros st w; simpl.
  - by intros [= <- _].
  - intros (st1 & w1 & H1 & H2)%bind_Ok c Hc.
    eapply IH; [exact H2|].
    apply move_obstacle_Ok in H1 as (d & _ & _ & Hmv).
    destruct st as [[dirs no] nd], st1 as [[dirs1 no1] nd1]. simpl in *.
    destruct Hmv as (_ & [(_ & -> & _)|(_ & -> & _)]); set_solver.
Qed.

(** Whenever the loop returns, it has walked over its list. *)
Lemma for_each_move_Ok self l st w st' w' :
  NoDup l ->
  for_each l (move_obstacle self) st w = Ok (st', w') ->
  trace w' = trace w /\ walked self l st st'.
Proof.
  intros Hl. revert st w. induction Hl as [|x l Hx Hl IH]; intros st w; simpl.
  - intros [= <- <-]. split; [done|].
    destruct st as [[dirs no] nd]. simpl.
    split_and!; [done|lia|by auto|by intros ? ?%elem_of_nil].
  - intros (st1 & w1 & H1 & H2)%bind_Ok.
    pose proof (for_each_move_mono _ _ _ _ _ _ H2) as Hmono.
    apply IH in H2 as [Htr Hw].
    apply move_obstacle_Ok in H1 as (d & Htr1 & Hd & Hmv).
    split; [by rewrite Htr|]. by eapply walked_cons.
Qed.

(** The loop returns when every obstacle of its list has a heading. *)
Lemma for_each_move_returns self l st w :
  NoDup l ->
  (forall obs, obs ∈ l -> is_Some (st.1.1 !! obs)) ->
  exists st' w', for_each l (move_obstacle self) st w = Ok (st', w').
Proof.
  intros Hl. revert st w. induction Hl as [|x l Hx Hl IH]; intros st w Hkeys; simpl.
  - unfold ret. eauto.
  - destruct st as [[dirs no] nd].
    destruct (move_obstacle_spec self dirs no nd x w)
      as (d & [[dirs1 no1] nd1] & w1 & H1 & _ & _ & Hk & _).
    { right. apply Hkeys. by left. }
    rewrite (bind_Ok_l _ _ _ _ _ H1). apply IH. simpl.
    intros obs Hobs. rewrite Hk; [apply Hkeys; by right|]. by intros ->.
Qed.





Section SetOrder.

Context (set_iter : gset Cell -> list Cell).
Context (set_iter_perm : forall s, set_iter s ≡ₚ elements s).

Lemma set_iter_NoDup s : NoDup (set_iter s).
Proof. rewrite set_iter_perm. apply NoDup_elements. Qed.

Lemma elem_of_set_iter s c : c ∈ set_iter s <-> c ∈ s.
Proof. rewrite set_iter_perm. apply elem_of_elements. Qed.

Lemma length_set_iter s : length (set_iter s) = size s.
Proof. by rewrite set_iter_perm. Qed.

Lemma set_iter_empty : set_iter ∅ = [].
Proof.
  apply Permutation_nil_r. rewrite set_iter_perm. by rewrite elements_empty.
Qed.

(** What a returning [_update_obstacles] has done. *)
Lemma update_obstacles_Ok self w self' w' :
  _update_obstacles set_iter self w = Ok (self', w') ->
  trace w' = trace w
  /\ self' = set_obstacle_directions (set_obstacles self (obstacles self'))
               (obstacle_directions self')
  /\ dom (obstacle_directions self') = obstacles self'
  /\ (size (obstacles self') <= size (obstacles self))%nat
  /\ (forall c, c ∈ obstacles self' ->
        c ∈ obstacles self \/ accepts self c = true)
  /\ (forall obs, obs ∈ obstacles self ->
        exists d, (obstacle_directions self !! obs = Some d \/ is_heading d) /\
          let new_pos := (obs.1 + d.1, obs.2 + d.2) in
          if accepts self new_pos then new_pos ∈ obstacles self'
          else obs ∈ obstacles self').
Proof.
  unfold _update_obstacles.
  intros ([[dirs' no'] nd'] & w1 & Hloop & [= <- <-])%bind_Ok.
  apply for_each_move_Ok in Hloop as [Htr (Hdom & Hsize & Hfrom & Himg)];
    [|apply set_iter_NoDup].
  simpl. split_and!; [done|done| | | |].
  - apply Hdom. by rewrite dom_empty_L.
  - rewrite length_set_iter, size_empty in Hsize. exact Hsize.
  - intros c Hc. destruct (Hfrom c Hc) as [?%elem_of_empty|[?%elem_of_set_iter|?]];
      [done|by left|by right].
  - intros obs Hobs%elem_of_set_iter. exact (Himg obs Hobs).
Qed.


Lemma update_obstacles_returns self w :
  obstacles self ⊆ dom (obstacle_directions self) ->
  exists self' w', _update_obstacles set_iter self w = Ok (self', w').
Proof.
  intros Hkeys. unfold _update_obstacles.
  destruct (for_each_move_returns self (set_iter (obstacles self))
              (obstacle_directions self, ∅, ∅) w)
    as ([[dirs' no'] nd'] & w1 & Hloop); [apply set_iter_NoDup| |].
  - intros obs Hobs%elem_of_set_iter. apply elem_of_dom. by apply Hkeys.
  - rewrite (bind_Ok_l _ _ _ _ _ Hloop). unfold ret. eauto.
Qed.

End SetOrder.

End ObstacleFacts.

(** ** The tick *)

Module TickFacts.
Import CableGame ObstacleFacts.

Lemma value_of_Ok {A} (r : Res (A * World)) a :
  value_of r = Ok a <-> exists w', r = Ok (a, w').
Proof.
  destruct r as [[a' w']| |]; simpl; split;
    try discriminate; try (intros [? [=]]); try (by intros [? [=]]).
  - intros [= ->]. eauto.
  - by simplify_eq.
Qed.

Lemma unsafe_test (self : Game) (obstacles' : gset Cell) (new_head : Cell) :
  (new_head.1 <? 0) || (new_head.1 >=? width self)
    || (new_head.2 <? 0) || (new_head.2 >=? height self)
    || in_list new_head (cable self)
    || in_set new_head obstacles' = true
  <-> unsafe self obstacles' new_head.
Proof.
  unfold unsafe, in_grid, in_list, in_set.
  rewrite !orb_true_iff, !bool_decide_eq_true, !Z.ltb_lt, !Z.geb_le.
  intuition lia.
Qed.

Lemma last_item_Ok {A} (l : list A) a w w' :
  last_item l w = Ok (a, w') <-> last l = Some a /\ w' = w.
Proof.
  unfold last_item. destruct (last l); unfold ret, raise; split.
  - by intros [= -> ->].
  - by intros [[= ->] ->].
  - discriminate.
  - by intros [??].
Qed.

Section SetOrder.

Context (set_iter : gset Cell -> list Cell).
Context (set_iter_perm : forall s, set_iter s ≡ₚ elements s).

(** The three ways a returning [update] ends. *)
Lemma update_Ok self w self' w' :
  update set_iter self w = Ok (self', w') ->
  exists self1 w1 head,
    _update_obstacles set_iter self w = Ok (self1, w1)
    /\ last (cable self) = Some head
    /\ let new_head := proposed_head self head in
       (unsafe self (obstacles self1) new_head
        /\ self' = set_running self1 false
        /\ trace w' = trace w ++ [FailSound])
       \/ (~ unsafe self (obstacles self1) new_head
           /\ new_head = outlet self
           /\ self' = set_running
                        (set_cable self1 (cable self ++ [new_head])) false
           /\ trace w' = trace w ++ [SuccessSound; YouWinPrinted])
       \/ (~ unsafe self (obstacles self1) new_head
           /\ new_head <> outlet self
           /\ self' = set_cable self1 (cable self ++ [new_head])
           /\ trace w' = trace w).
Proof.
  unfold update. intros (self1 & w1 & Hobs & Hrest)%bind_Ok.
  pose proof (update_obstacles_Ok set_iter set_iter_perm _ _ _ _ Hobs)
    as (Htr & Hself1 & _).
  apply bind_Ok in Hrest as (head & w2 & [Hlast ->]%last_item_Ok & Hrest).
  assert (cable self1 = cable self) as Hcable by (by rewrite Hself1).
  assert (direction self1 = direction self) as Hdir by (by rewrite Hself1).
  assert (outlet self1 = outlet self) as Hout by (by rewrite Hself1).
  assert (width self1 = width self) as Hwd by (by rewrite Hself1).
  assert (height self1 = height self) as Hht by (by rewrite Hself1).
  rewrite Hcable in Hlast. exists self1, w1, head.
  split; [done|]. split; [done|].
  unfold proposed_head. rewrite Hdir in Hrest.
  destruct (value (direction self)) as [dx dy]. cbn [fst snd].
  cbv zeta in Hrest. cbn [fst snd] in Hrest.
  rewrite Hcable, Hwd, Hht in Hrest.
  destruct (_ || in_set _ _) eqn:Htest in Hrest.
  - apply (unsafe_test self _ (head.1 + dx, head.2 + dy)) in Htest.
    left. split; [done|].
    unfold bind, emit, ret in Hrest. injection Hrest as <- <-.
    split; [done|]. simpl. by rewrite Htr.
  - right. assert (~ unsafe self (obstacles self1) (head.1 + dx, head.2 + dy))
      as Hsafe.
    { intros Hu. apply (unsafe_test self _ (head.1 + dx, head.2 + dy)) in Hu.
      cbn [fst snd] in Hu. by rewrite Htest in Hu. }
    unfold cell_eqb in Hrest. simpl in Hrest. rewrite Hout in Hrest.
    case_bool_decide as Hwin.
    + left. unfold bind, emit, ret in Hrest. injection Hrest as <- <-.
      split_and!; [done|done|done|]. simpl. rewrite Htr.
      by rewrite <- app_assoc.
    + right. unfold ret in Hrest. injection Hrest as <- <-. done.
Qed.

(** [update] returns in every well-formed state. *)
Lemma update_returns self w :
  well_formed self -> exists self' w', update set_iter self w = Ok (self', w').
Proof.
  intros [Hcable Hkeys]. unfold update.
  destruct (update_obstacles_returns set_iter set_iter_perm self w Hkeys)
    as (self1 & w1 & Hobs).
  rewrite (bind_Ok_l _ _ _ _ _ Hobs).
  pose proof (update_obstacles_Ok set_iter set_iter_perm _ _ _ _ Hobs)
    as (_ & Hself1 & _).
  assert (cable self1 = cable self) as Hc by (by rewrite Hself1).
  destruct (last (cable self1)) as [head|] eqn:Hlast.
  2: { rewrite Hc in Hlast. by apply last_None in Hlast. }
  rewrite (bind_Ok_l _ _ _ head w1) by (by apply last_item_Ok).
  destruct (value (direction self1)) as [dx dy]. cbv zeta.
  destruct (_ || in_set _ _).
  - unfold bind, emit, ret. eauto.
  - destruct (cell_eqb _ _); unfold bind, emit, ret; eauto.
Qed.

Lemma update_cable self w self' w' :
  update set_iter self w = Ok (self', w') ->
  cable self' = cable self
  \/ exists c, (c ∉ cable self) /\ cable self' = cable self ++ [c].
Proof.
  intros (self1 & w1 & head & Hobs & _ & Hcases)%update_Ok.
  destruct Hcases as [(_ & -> & _)|[(Hsafe & _ & -> & _)|(Hsafe & _ & -> & _)]].
  - left. apply update_obstacles_Ok in Hobs as (_ & -> & _); done.
  - right. eexists. split; [|done]. unfold unsafe in Hsafe. tauto.
  - right. eexists. split; [|done]. unfold unsafe in Hsafe. tauto.
Qed.

Lemma update_obstacles_of self w self' w' :
  update set_iter self w = Ok (self', w') ->
  exists self1 w1,
    _update_obstacles set_iter self w = Ok (self1, w1)
    /\ obstacles self' = obstacles self1
    /\ obstacle_directions self' = obstacle_directions self1.
Proof.
  intros (self1 & w1 & head & Hobs & _ & Hcases)%update_Ok.
  exists self1, w1. split; [done|].
  by destruct Hcases as [(_ & -> & _)|[(_ & _ & -> & _)|(_ & _ & -> & _)]].
Qed.

Lemma phase_lost self :
  phase_after (set_running self false) [FailSound] = Some Lost.
Proof. reflexivity. Qed.

Lemma phase_won self :
  phase_after (set_running self false) [SuccessSound; YouWinPrinted] = Some Won.
Proof. reflexivity. Qed.

Lemma phase_active self :
  running self = true -> phase_after self [] = Some Active.
Proof. unfold phase_after. by intros ->. Qed.

(** C1: in the Active phase, in a state with a trail head and a heading
    for every obstacle, one call of [update] returns, and with
    [new_head = head + heading] it ends in Lost exactly when [new_head] is
    outside the grid, on the trail, or in the obstacle set as
    [_update_obstacles] has just left it; then the trail is unchanged.
    Otherwise [new_head] alone is appended, and the phase is Won exactly
    when [new_head] is the outlet, Active exactly when it is not.  The
    length of the trail is unchanged or one more. *)
Theorem update_outcome (self : Game) (w : World) (head : Cell) :
  running self = true ->
  last (cable self) = Some head ->
  obstacles self ⊆ dom (obstacle_directions self) ->
  exists self1 w1 self' w' played,
    _update_obstacles set_iter self w = Ok (self1, w1)
    /\ update set_iter self w = Ok (self', w')
    /\ trace w' = trace w ++ played
    /\ let new_head := proposed_head self head in
       let lost := unsafe self (obstacles self1) new_head in
       (phase_after self' played = Some Lost <-> lost)
       /\ (lost -> cable self' = cable self)
       /\ (~ lost -> cable self' = cable self ++ [new_head])
       /\ (~ lost ->
           (phase_after self' played = Some Won <-> new_head = outlet self)
           /\ (phase_after self' played = Some Active
               <-> new_head <> outlet self))
       /\ (length (cable self') = length (cable self)
           \/ length (cable self') = S (length (cable self))).
Proof.
  intros Hrun Hlast Hkeys.
  destruct (update_returns self w) as (self' & w' & Hupd).
  { split; [|done]. intros Hnil. by rewrite Hnil in Hlast. }
  destruct (update_Ok _ _ _ _ Hupd)
    as (self1 & w1 & head' & Hobs & Hlast' & Hcases).
  assert (head' = head) as -> by congruence.
  pose proof (update_obstacles_Ok set_iter set_iter_perm _ _ _ _ Hobs)
    as (_ & Hself1 & _).
  assert (cable self1 = cable self) as Hcable by (by rewrite Hself1).
  assert (running self1 = true) as Hrun1 by (by rewrite Hself1).
  exists self1, w1, self', w'.
  destruct Hcases as [(Hlost & -> & Htr)|[(Hsafe & Hwin & -> & Htr)
                                         |(Hsafe & Hnowin & -> & Htr)]].
  - exists [FailSound]. split; [done|]. split; [done|]. split; [done|].
    cbv zeta. rewrite phase_lost. simpl. rewrite Hcable.
    split_and!; [tauto|done|tauto|tauto|by left].
  - exists [SuccessSound; YouWinPrinted].
    split; [done|]. split; [done|]. split; [done|].
    cbv zeta. rewrite phase_won. simpl.
    split_and!; [split; [discriminate|tauto]|tauto|done| |].
    + intros _. split; [done|]. split; [discriminate|done].
    + right. rewrite length_app. simpl. lia.
  - exists []. split; [done|]. split; [done|].
    split; [by rewrite app_nil_r|].
    cbv zeta. rewrite phase_active by done. simpl.
    split_and!; [split; [discriminate|tauto]|tauto|done| |].
    + intros _. split; [split; [discriminate|done]|done].
    + right. rewrite length_app. simpl. lia.
Qed.

End SetOrder.

(** Three ticks to the right from the middle of a 5 x 5 grid: two cells
    are laid, the third tick runs into the wall and leaves the trail as
    it was. *)
Example corridor_run :
  value_of ((self <- update elements corridor_game ;;
             update elements self) calm)
  = Ok (set_cable corridor_game [(2, 2); (3, 2); (4, 2)])
  /\ value_of ((self <- update elements corridor_game ;;
                self <- update elements self ;;
                update elements self) calm)
     = Ok (set_running (set_cable corridor_game [(2, 2); (3, 2); (4, 2)])
                       false).
Proof. split; vm_compute; reflexivity. Qed.

End TickFacts.

(** ** The generators *)

Module GeneratorFacts.
Import CableGame ObstacleFacts TickFacts.

Lemma first_item_Ok {A} (l : list A) a w w' :
  first_item l w = Ok (a, w') <-> head l = Some a /\ w' = w.
Proof.
  destruct l as [|x l]; simpl; unfold ret, raise; split.
  - discriminate.
  - by intros [??].
  - by intros [= -> ->].
  - by intros [[= ->] ->].
Qed.

Lemma elem_of_offsets (x : Z) : x ∈ [-1; 0; 1] -> x = -1 \/ x = 0 \/ x = 1.
Proof. rewrite !elem_of_cons, elem_of_nil. tauto. Qed.

Lemma in_grid_test (self : Game) (c : Cell) :
  (0 <=? c.1) && (c.1 <? width self) && (0 <=? c.2) && (c.2 <? height self)
    = true
  <-> in_grid self c.
Proof.
  unfold in_grid. rewrite !andb_true_iff, !Z.leb_le, !Z.ltb_lt. tauto.
Qed.

(** [_get_valid_neighbors] lists cells around [pos], inside the grid and
    off the start of the trail, and draws nothing. *)
Lemma get_valid_neighbors_Ok self pos w l w' :
  _get_valid_neighbors self pos w = Ok (l, w') ->
  forall c, c ∈ l -> growable self pos c.
Proof.
  unfold _get_valid_neighbors.
  apply (for_each_inv (fun l => forall c, c ∈ l -> growable self pos c));
    [|by intros c ?%elem_of_nil].
  intros nb dx w1 nb' w1' Hdx Hnb.
  apply (for_each_inv (fun l => forall c, c ∈ l -> growable self pos c));
    [|done].
  clear nb Hnb. intros nb dy w2 nb2 w2' Hdy Hnb.
  destruct ((dx =? 0) && (dy =? 0)) eqn:Hzero; [by intros [= <- _]|].
  cbv zeta.
  destruct (_ && (_ <? height self)) eqn:Hgrid; [|by intros [= <- _]].
  apply (in_grid_test self (pos.1 + dx, pos.2 + dy)) in Hgrid.
  intros (c0 & w3 & [Hc0 ->]%first_item_Ok & Hrun)%bind_Ok.
  unfold cell_eqb in Hrun. case_bool_decide as Heq; simpl in Hrun;
    injection Hrun as <- _; [done|].
  intros c [Hc| ->%list_elem_of_singleton]%elem_of_app; [by apply Hnb|].
  split_and!; [|done|congruence].
  apply elem_of_offsets in Hdx, Hdy. unfold adjacent. simpl.
  apply andb_false_iff in Hzero. rewrite !Z.eqb_neq in Hzero.
  destruct pos as [px py]. simpl.
  split; [intros [= ??]; lia|]. lia.
Qed.

Section Generators.

Context (set_iter : gset Cell -> list Cell).
Context (set_iter_perm : forall s, set_iter s ≡ₚ elements s).
Variable self : Game.

(** The seed phase: every cell is inside the grid, off the start of the
    trail and off (1, height - 2), and the loop leaves with the number of
    seeds it was after. *)
Lemma seed_loop_Ok (fuel : nat) (N : Z) (obstacles : gset Cell) w s w' :
  seed_loop self fuel N obstacles w = Ok (s, w') ->
  (forall c, c ∈ obstacles -> seedable self c) ->
  Z.of_nat (size obstacles) <= Z.max 0 (N / 4) ->
  (forall c, c ∈ s -> seedable self c)
  /\ N / 4 <= Z.of_nat (size s) <= Z.max 0 (N / 4).
Proof.
  revert obstacles w. induction fuel as [|fuel IH]; intros obs w; [discriminate|].
  simpl. destruct (Z.ltb_spec (Z.of_nat (size obs)) (N / 4)) as [Hlt|Hge].
  2: { intros [= <- _] Hobs Hsize. split; [done|lia]. }
  intros (x & w1 & Hx & (y & w2 & Hy & (c0 & w3 & [Hc0 ->]%first_item_Ok & Hrun)
    %bind_Ok)%bind_Ok)%bind_Ok Hobs Hsize.
  apply random_randint_range in Hx, Hy.
  unfold cell_eqb in Hrun.
  destruct (negb _ && negb _) eqn:Hpos in Hrun; [|by eapply IH].
  apply andb_true_iff in Hpos as [Hstart Hpoint].
  apply negb_true_iff, bool_decide_eq_false in Hstart, Hpoint.
  eapply IH; [exact Hrun| |].
  - intros c [->%elem_of_singleton|Hc]%elem_of_union; [|by apply Hobs].
    split_and!; [unfold in_grid; simpl; lia|congruence|done].
  - etrans; [apply Nat2Z.inj_le, size_add|]. lia.
Qed.

Lemma grown_growable seeds s :
  grown self seeds s ->
  forall c, c ∈ s -> c ∈ seeds \/ (in_grid self c /\ head (cable self) <> Some c).
Proof.
  induction 1 as [|s existing new_pos Hs IH Hex Hadj Hgrid Hstart Hnew];
    intros c Hc; [by left|].
  apply elem_of_union in Hc as [->%elem_of_singleton|Hc]; [by right|by apply IH].
Qed.

Lemma grown_seeds_subseteq seeds s : grown self seeds s -> seeds ⊆ s.
Proof. induction 1; set_solver. Qed.

(** The growth phase: one adjacent cell at a time, leaving with exactly
    [N] cells. *)
Lemma grow_loop_Ok (fuel : nat) (N : Z) (seeds obstacles : gset Cell) w s w' :
  grow_loop set_iter self fuel N obstacles w = Ok (s, w') ->
  grown self seeds obstacles ->
  Z.of_nat (size obstacles) <= N ->
  grown self seeds s /\ Z.of_nat (size s) = N.
Proof.
  revert obstacles w. induction fuel as [|fuel IH]; intros obs w; [discriminate|].
  simpl. destruct (Z.ltb_spec (Z.of_nat (size obs)) N) as [Hlt|Hge].
  2: { intros [= <- _] Hobs Hsize. split; [done|lia]. }
  intros (existing & w1 & Hex & (nb & w2 & Hnb & Hrun)%bind_Ok)%bind_Ok Hobs Hsize.
  apply random_choice_elem, (elem_of_set_iter set_iter set_iter_perm) in Hex.
  pose proof (get_valid_neighbors_Ok _ _ _ _ _ Hnb) as Hgrow.
  destruct nb as [|n0 nb]; [by eapply IH|].
  apply bind_Ok in Hrun as (new_pos & w3 & Hnew & Hrun).
  apply random_choice_elem, Hgrow in Hnew as (Hadj & Hgrid & Hstart).
  unfold in_set in Hrun. case_bool_decide as Hin; simpl in Hrun; [by eapply IH|].
  eapply IH; [exact Hrun| |].
  - by eapply grown_add.
  - rewrite size_union, size_singleton by set_solver. lia.
Qed.

(** C6: for a target count N >= 4, in the state [__init__] calls it in
    (the trail is its start cell (1, height - 2)), a returning
    [_generate_correlated_obstacles] yields exactly N cells, all inside
    the grid, none of them the start cell (1, height - 2): N / 4 seeds,
    then one new cell at a time, each an in-grid neighbour, other than
    the start cell, of a cell already there. *)
Theorem correlated_obstacles_exact (fuel : nat) (N : Z) (w : World) (s : gset Cell) :
  4 <= N ->
  head (cable self) = Some (1, height self - 2) ->
  value_of (_generate_correlated_obstacles set_iter self fuel N w) = Ok s ->
  Z.of_nat (size s) = N
  /\ (forall c, c ∈ s -> in_grid self c)
  /\ (forall start, head (cable self) = Some start -> start ∉ s)
  /\ ((1, height self - 2) ∉ s)
  /\ exists seeds : gset Cell,
       Z.of_nat (size seeds) = N / 4
       /\ (forall c, c ∈ seeds -> seedable self c)
       /\ grown self seeds s.
Proof.
  intros HN Hstart [w' Hrun]%value_of_Ok.
  unfold _generate_correlated_obstacles in Hrun.
  apply bind_Ok in Hrun as (seeds & w1 & Hseed & Hgrow).
  apply seed_loop_Ok in Hseed as [Hseeds Hsize];
    [|by intros c ?%elem_of_empty|rewrite size_empty; lia].
  assert (0 <= N / 4 <= N) as Hquarter
    by (split; [apply Z.div_pos|apply Z.div_le_upper_bound]; lia).
  eapply grow_loop_Ok in Hgrow as [Hgrown HsizeN]; [|apply grown_seeds|lia].
  assert (forall c, c ∈ s -> in_grid self c /\ head (cable self) <> Some c) as Hall.
  { intros c Hc. destruct (grown_growable _ _ Hgrown c Hc) as [Hc1|]; [|done].
    destruct (Hseeds c Hc1) as (? & ? & ?). done. }
  split_and!.
  - done.
  - intros c Hc. by apply Hall.
  - intros start Hhead Hc. by apply Hall in Hc as [_ ?].
  - intros Hc. by apply Hall in Hc as [_ ?].
  - exists seeds. split_and!; [lia|done|done].
Qed.

(** C9: for a target count of 1, 2 or 3 the seed phase is after
    N // 4 = 0 cells and leaves at once with the empty set, and the
    growth phase calls [random.choice] on an empty list: the generator
    raises IndexError and never returns a set. *)
Theorem few_obstacles_raise (fuel : nat) (N : Z) (w : World) :
  1 <= N <= 3 ->
  (forall s, value_of (_generate_correlated_obstacles set_iter self fuel N w)
             <> Ok s)
  /\ (fuel <> 0%nat ->
      _generate_correlated_obstacles set_iter self fuel N w = Raise IndexError).
Proof.
  intros HN. assert (N / 4 = 0) as Hq by (apply Z.div_small; lia).
  assert (fuel <> 0%nat ->
          _generate_correlated_obstacles set_iter self fuel N w
          = Raise IndexError) as Hraise.
  { destruct fuel as [|fuel]; [done|intros _].
    unfold _generate_correlated_obstacles. cbn [seed_loop grow_loop].
    rewrite Hq, size_empty. change (Z.of_nat 0 <? 0) with false. cbv iota.
    rewrite (bind_Ok_l _ _ w ∅ w) by done. rewrite size_empty.
    destruct (Z.ltb_spec (Z.of_nat 0) N) as [_|?]; [|lia].
    by rewrite (set_iter_empty set_iter set_iter_perm). }
  split; [|done]. intros s.
  destruct fuel as [|fuel]; [done|]. by rewrite Hraise.
Qed.

End Generators.

(** Integers of up to 53 bits are doubles. *)
Lemma nearest_double_exact (n : Z) : Z.abs n <= 2 ^ 53 -> nearest_double n = n.
Proof.
  intros Hn. unfold nearest_double.
  destruct (Z.eq_dec (Z.abs n) (2 ^ 53)) as [Heq|Hne].
  - assert (n = 2 ^ 53 \/ n = - 2 ^ 53) as [-> | ->] by lia;
      vm_compute; reflexivity.
  - assert (Z.log2 (Z.abs n) < 53) as Hlog.
    { destruct (Z.eq_dec (Z.abs n) 0) as [-> | Hz]; [done|].
      apply Z.log2_lt_pow2; lia. }
    by rewrite (proj2 (Z.leb_le _ _)) by lia.
Qed.

(** Rounding to 53 bits at most doubles a number. *)
Lemma nearest_double_le (n : Z) : Z.abs (nearest_double n) <= 2 * Z.abs n.
Proof.
  unfold nearest_double.
  destruct (Z.leb_spec (Z.log2 (Z.abs n) - 52) 0) as [_|He]; [lia|].
  set (a := Z.abs n) in *. set (e := Z.log2 a - 52) in *.
  assert (0 < a) as Ha.
  { destruct (Z.eq_dec a 0) as [Hz|]; [|lia].
    unfold e in He. rewrite Hz in He. simpl in He. lia. }
  assert (0 < 2 ^ e) as Hpos by (apply Z.pow_pos_nonneg; lia).
  assert (2 ^ e <= a) as Hle.
  { etrans; [apply (Z.pow_le_mono_r 2 e (Z.log2 a)); lia|].
    by apply Z.log2_spec. }
  pose proof (Z.mul_div_le a (2 ^ e) Hpos) as Hq.
  pose proof (Z.div_pos a (2 ^ e)) as Hq0.
  set (q := a / 2 ^ e) in *.
  assert (Z.abs (Z.sgn n) = 1) as Hsgn by (unfold a in Ha; lia).
  destruct ((_ <? _) || _); rewrite Z.abs_mul, Hsgn, Z.mul_1_l;
    rewrite Z.abs_eq by nia; nia.
Qed.

(** Rounding keeps a number of more than 1025 bits that large. *)
Lemma nearest_double_big (n : Z) : 2 ^ 1025 <= n -> 2 ^ 1025 <= nearest_double n.
Proof.
  intros Hn. unfold nearest_double.
  assert (0 < 2 ^ 1025) as Hbig by (by apply Z.pow_pos_nonneg).
  rewrite (Z.abs_eq n) by lia.
  assert (1025 <= Z.log2 n) as Hlog by (apply Z.log2_le_pow2; lia).
  destruct (Z.leb_spec (Z.log2 n - 52) 0) as [He|He]; [lia|].
  pose proof (Z.log2_spec n ltac:(lia)) as [Hlow _].
  assert (2 ^ 1025 <= 2 ^ Z.log2 n) as Hpow
    by (apply Z.pow_le_mono_r; lia).
  assert (2 ^ Z.log2 n = 2 ^ 52 * 2 ^ (Z.log2 n - 52)) as Heq
    by (rewrite <- Z.pow_add_r by lia; f_equal; lia).
  set (e := Z.log2 n - 52) in *.
  assert (0 < 2 ^ e) as Hpos by (apply Z.pow_pos_nonneg; lia).
  assert (2 ^ 52 <= n / 2 ^ e) as Hq
    by (apply Z.div_le_lower_bound; lia).
  set (q := n / 2 ^ e) in *. set (B := 2 ^ 1025) in *.
  set (P := 2 ^ Z.log2 n) in *. set (E := 2 ^ e) in *.
  rewrite Z.sgn_pos by lia.
  destruct ((_ <? _) || _); nia.
Qed.

Lemma true_divide_2_Ok (n : Z) (h : Q) (w w' : World) :
  true_divide_2 n w = Ok (h, w') ->
  h = (inject_Z (nearest_double n) / 2)%Q /\ w' = w.
Proof.
  unfold true_divide_2. destruct (_ <=? _); [discriminate|].
  by intros [= <- <-].
Qed.

(** The division returns on every width below 2^1024. *)
Lemma true_divide_2_returns (n : Z) (w : World) :
  Z.abs n < 2 ^ 1024 ->
  true_divide_2 n w = Ok ((inject_Z (nearest_double n) / 2)%Q, w).
Proof.
  intros Hn. unfold true_divide_2.
  pose proof (nearest_double_le n) as Hle.
  destruct (Z.leb_spec (2 ^ 1025) (Z.abs (nearest_double n))) as [Hbig|_];
    [|done].
  exfalso. change (2 ^ 1025) with (2 * 2 ^ 1024) in Hbig. lia.
Qed.

Lemma gt_half_spec (d m : Z) :
  int_gt_float d (inject_Z m / 2)%Q = true
  <-> (inject_Z m / 2 < inject_Z d)%Q.
Proof.
  unfold int_gt_float.
  rewrite negb_true_iff, <- not_true_iff_false, Qle_bool_iff.
  split; [apply Qnot_le_lt | apply Qlt_not_le].
Qed.

Lemma gt_half_Z (d m : Z) : (inject_Z m / 2 < inject_Z d)%Q <-> m < 2 * d.
Proof. unfold Qlt, Qdiv, Qmult, Qinv, inject_Z. simpl. lia. Qed.

(** What a returning [_generate_outlet] has checked of its cell. *)
Lemma generate_outlet_checked (self : Game) (fuel : nat) (w : World)
    (pos : Cell) (w' : World) :
  _generate_outlet self fuel w = Ok (pos, w') ->
  in_grid self pos
  /\ (pos ∉ obstacles self)
  /\ exists start, head (cable self) = Some start
       /\ pos <> start
       /\ nearest_double (width self) < 2 * manhattan pos start.
Proof.
  revert w. induction fuel as [|fuel IH]; intros w; [discriminate|].
  simpl.
  intros (x & w1 & Hx & (y & w2 & Hy & Hrun)%bind_Ok)%bind_Ok.
  apply random_randint_range in Hx, Hy.
  unfold in_set, cell_eqb in Hrun.
  case_bool_decide as Hobs; simpl in Hrun; [by eapply IH|].
  apply bind_Ok in Hrun as (c0 & w3 & [Hc0 ->]%first_item_Ok & Hrun).
  case_bool_decide as Hne; simpl in Hrun; [by eapply IH|].
  apply bind_Ok in Hrun as (c1 & w4 & [Hc1 ->]%first_item_Ok & Hrun).
  apply bind_Ok in Hrun as (half & w5 & [-> ->]%true_divide_2_Ok & Hrun).
  destruct (int_gt_float _ _) eqn:Hfar in Hrun; [|by eapply IH].
  apply gt_half_spec, gt_half_Z in Hfar.
  injection Hrun as <- _. assert (c1 = c0) as -> by congruence.
  split_and!; [unfold in_grid; simpl; lia|done|].
  by exists c0.
Qed.

(** C7: a cell [_generate_outlet] returns is inside the grid, is no
    obstacle, is not the start of the trail, and lies at a Manhattan
    distance from the start of more than [self.width / 2], the double
    nearest to half the width.  For a width of up to 2^53 that double is
    half the width itself, and the distance is more than half the
    width (in integers, width < 2 * distance). *)
Theorem outlet_far (self : Game) (fuel : nat) (w : World) (pos : Cell) :
  value_of (_generate_outlet self fuel w) = Ok pos ->
  in_grid self pos
  /\ (pos ∉ obstacles self)
  /\ exists start, head (cable self) = Some start
       /\ pos <> start
       /\ (inject_Z (nearest_double (width self)) / 2
           < inject_Z (manhattan pos start))%Q
       /\ (width self <= 2 ^ 53 ->
           (inject_Z (width self) / 2 < inject_Z (manhattan pos start))%Q
           /\ width self < 2 * manhattan pos start).
Proof.
  intros [w' Hrun]%value_of_Ok.
  pose proof Hrun as Hpos. apply generate_outlet_checked in Hpos
    as (Hgrid & Hobs & start & Hstart & Hne & Hfar).
  split_and!; [done|done|].
  exists start. split_and!; [done|done|by apply gt_half_Z|].
  intros Hw. assert (nearest_double (width self) = width self) as Heq.
  { apply nearest_double_exact. destruct Hgrid as [Hx _]. lia. }
  rewrite Heq in Hfar. split; [by apply gt_half_Z|done].
Qed.

End GeneratorFacts.

(** ** Sessions *)

Module SessionFacts.
Import CableGame ObstacleFacts TickFacts GeneratorFacts.

Lemma process_direction_change_fields self key :
  cable (_process_direction_change self key) = cable self
  /\ obstacles (_process_direction_change self key) = obstacles self
  /\ obstacle_directions (_process_direction_change self key)
     = obstacle_directions self.
Proof.
  by rewrite (HeadingFacts.process_direction_change_direction self key).
Qed.

Lemma handle_input_fields self events :
  cable (handle_input self events) = cable self
  /\ obstacles (handle_input self events) = obstacles self
  /\ obstacle_directions (handle_input self events) = obstacle_directions self.
Proof.
  unfold handle_input. revert self.
  induction events as [|ev events IH]; intros self; [done|].
  simpl. destruct (IH (match ev with
                       | QUIT => set_running self false
                       | KEYDOWN key => _process_direction_change self key
                       | OtherEvent => self
                       end)) as (-> & -> & ->).
  destruct ev; [done| |done]. apply process_direction_change_fields.
Qed.

Section SetOrder.

Context (set_iter : gset Cell -> list Cell).
Context (set_iter_perm : forall s, set_iter s ≡ₚ elements s).

(** The dict comprehension of [__init__] gives every obstacle a heading. *)
Lemma init_directions_dom (l : list Cell) (m : gmap Cell (Z * Z)) w m' w' :
  for_each l (fun m obs => d <- _random_direction ;; ret (<[obs := d]> m)) m w
  = Ok (m', w') ->
  dom m' = dom m ∪ list_to_set l.
Proof.
  revert m w. induction l as [|x l IH]; intros m w; simpl.
  - intros [= <- _]. set_solver.
  - intros (m1 & w1 & (d & w2 & _ & [= <- _])%bind_Ok & Hrest)%bind_Ok.
    rewrite (IH _ _ Hrest), dom_insert_L. set_solver.
Qed.

Lemma init_Ok fuel wd ht N w self :
  value_of (__init__ set_iter fuel wd ht N w) = Ok self ->
  width self = wd /\ height self = ht
  /\ cable self = [(1, ht - 2)]
  /\ direction self = RIGHT
  /\ running self = true
  /\ dom (obstacle_directions self) = obstacles self.
Proof.
  intros [w' Hrun]%value_of_Ok. unfold __init__ in Hrun.
  apply bind_Ok in Hrun as (obs & w1 & _ & Hrun).
  apply bind_Ok in Hrun as (dirs & w2 & Hdirs & Hrun).
  apply bind_Ok in Hrun as (out & w3 & _ & [= <- _]).
  simpl. split_and!; try done.
  rewrite (init_directions_dom _ _ _ _ _ Hdirs), dom_empty_L.
  apply set_eq. intros c.
  rewrite elem_of_union, elem_of_list_to_set,
    (elem_of_set_iter set_iter set_iter_perm).
  set_solver.
Qed.

Lemma step_invariants self self' :
  step set_iter self self' ->
  (well_formed self -> well_formed self')
  /\ (NoDup (cable self) -> NoDup (cable self'))
  /\ (size (obstacles self') <= size (obstacles self))%nat.
Proof.
  destruct 1 as [self events|self w self' [w' Hupd]%value_of_Ok].
  - unfold well_formed.
    by destruct (handle_input_fields self events) as (-> & -> & ->).
  - destruct (update_obstacles_of set_iter set_iter_perm _ _ _ _ Hupd)
      as (self1 & w1 & Hobs & Ho & Hd).
    apply (update_obstacles_Ok set_iter set_iter_perm) in Hobs
      as (_ & _ & Hdom & Hsize & _).
    pose proof (update_cable set_iter set_iter_perm _ _ _ _ Hupd) as Hcable.
    unfold well_formed. rewrite Ho, Hd, Hdom. split_and!; [|
      |done].
    + intros [Hne _]. split; [|done].
      destruct Hcable as [->|(c & _ & ->)]; [done|]. by destruct (cable self).
    + intros Hnd. destruct Hcable as [->|(c & Hc & ->)]; [done|].
      apply NoDup_app. split; [done|]. split; [|apply NoDup_singleton].
      by intros x Hx ->%list_elem_of_singleton.
Qed.

Lemma initial_invariants self :
  initial set_iter self -> well_formed self /\ NoDup (cable self).
Proof.
  intros (fuel & wd & ht & N & w & Hinit).
  apply init_Ok in Hinit as (_ & _ & Hcable & _ & _ & Hdom).
  unfold well_formed. rewrite Hcable, Hdom.
  split; [done|apply NoDup_singleton].
Qed.

(** Every state of a session has a trail head and a heading for every
    obstacle. *)
Lemma reachable_well_formed self :
  reachable set_iter self -> well_formed self.
Proof.
  intros (self0 & [Hwf _]%initial_invariants & Hsteps).
  induction Hsteps as [|x y z Hstep _ IH]; [done|].
  apply IH. by apply (step_invariants _ _ Hstep).
Qed.

(** C2: in every state a session reaches from its one-cell trail by
    inputs and ticks, no two cells of the trail are equal; and a tick
    whose proposed head is a cell of the trail leaves the trail as it is,
    stops the game and plays the fail sound. *)
Theorem trail_never_crosses (self : Game) :
  reachable set_iter self ->
  NoDup (cable self)
  /\ forall w head self' w',
       last (cable self) = Some head ->
       proposed_head self head ∈ cable self ->
       update set_iter self w = Ok (self', w') ->
       cable self' = cable self /\ running self' = false
       /\ trace w' = trace w ++ [FailSound].
Proof.
  intros (self0 & [_ Hnd]%initial_invariants & Hsteps). split.
  - induction Hsteps as [|x y z Hstep _ IH]; [done|].
    apply IH. by apply (step_invariants _ _ Hstep).
  - intros w head self' w' Hlast Hrepeat Hupd.
    apply (update_Ok set_iter set_iter_perm) in Hupd
      as (self1 & w1 & head' & Hobs & Hlast' & Hcases).
    assert (head' = head) as -> by congruence.
    apply (update_obstacles_Ok set_iter set_iter_perm) in Hobs
      as (_ & Hself1 & _).
    assert (cable self1 = cable self) as Hcable by (by rewrite Hself1).
    destruct Hcases as [(_ & -> & Htr)|[(Hsafe & _)|(Hsafe & _)]].
    + simpl. by rewrite Hcable.
    + exfalso. apply Hsafe. right. by left.
    + exfalso. apply Hsafe. right. by left.
Qed.


Lemma steps_obstacle_count self self' :
  rtc (step set_iter) self self' ->
  (size (obstacles self') <= size (obstacles self))%nat.
Proof.
  induction 1 as [|x y z Hstep _ IH]; [done|].
  etrans; [exact IH|]. by apply (step_invariants _ _ Hstep).
Qed.

(** Two obstacles that head for the same cell become one. *)
Lemma obstacles_merge :
  exists self',
    value_of (_update_obstacles set_iter merge_game calm) = Ok self'
    /\ obstacles self' = {[(2, 1)]}
    /\ size (obstacles merge_game) = 2%nat.
Proof.
  pose proof (set_iter_perm (obstacles merge_game)) as Hperm.
  match type of Hperm with
  | _ ≡ₚ ?l => assert (l = [(3, 1); (1, 1)]) as Hel by (vm_compute; reflexivity)
  end.
  rewrite Hel in Hperm. symmetry in Hperm.
  apply Permutation_length_2_inv in Hperm.
  unfold _update_obstacles. destruct Hperm as [-> | ->].
  - eexists. split; [vm_compute; reflexivity|]. split; vm_compute; reflexivity.
  - eexists. split; [vm_compute; reflexivity|]. split; vm_compute; reflexivity.
Qed.

(** C10: a returning [_update_obstacles] leaves no more obstacles than it
    found and a direction map whose keys are exactly the obstacle cells;
    over any run of inputs and ticks the number of obstacles never
    grows; and two obstacles that come to stand on one cell are one
    obstacle from then on. *)
Theorem obstacle_count_never_grows (self : Game) (w : World) (self1 self2 : Game) :
  value_of (_update_obstacles set_iter self w) = Ok self1 ->
  rtc (step set_iter) self self2 ->
  (size (obstacles self1) <= size (obstacles self))%nat
  /\ dom (obstacle_directions self1) = obstacles self1
  /\ (size (obstacles self2) <= size (obstacles self))%nat
  /\ exists merged,
       value_of (_update_obstacles set_iter merge_game calm) = Ok merged
       /\ (size (obstacles merged) < size (obstacles merge_game))%nat.
Proof.
  intros [w1 Hobs]%value_of_Ok Hsteps.
  apply (update_obstacles_Ok set_iter set_iter_perm) in Hobs
    as (_ & _ & Hdom & Hsize & _).
  split_and!; [done|done|by apply steps_obstacle_count|].
  destruct obstacles_merge as (merged & Hrun & Hone & Htwo).
  exists merged. split; [done|]. rewrite Hone, Htwo, size_singleton. lia.
Qed.

End SetOrder.

End SessionFacts.

(** ** Concrete runs *)

Module Runs.
Import CableGame.

Lemma elements_order (s : gset Cell) : elements s ≡ₚ elements s.
Proof. reflexivity. Defined.

Lemma edge_game_keys :
  obstacles edge_game ⊆ dom (obstacle_directions edge_game).
Proof.
  apply (bool_decide_unpack
           (obstacles edge_game ⊆ dom (obstacle_directions edge_game))).
  vm_compute. exact I.
Defined.

Lemma session_start_initial : initial elements session_start.
Proof.
  exists 20%nat, 10, 10, 4, session_world. vm_compute. reflexivity.
Defined.

Lemma session_next_reachable : reachable elements session_next.
Proof.
  exists session_start. split; [exact session_start_initial|].
  eapply rtc_l; [apply (step_input elements session_start [KEYDOWN K_UP])|].
  eapply rtc_l; [|apply rtc_refl].
  apply (step_update elements _ calm). vm_compute. reflexivity.
Defined.

Lemma merge_game_steps : rtc (step elements) merge_game merged_next.
Proof.
  eapply rtc_l; [|apply rtc_refl].
  apply (step_update elements _ calm). vm_compute. reflexivity.
Defined.

(** [update_outcome] on the 5 x 5 session with an obstacle at the edge. *)
Lemma update_outcome_witness :
  exists self1 w1 self' w' played,
    _update_obstacles elements edge_game calm = Ok (self1, w1)
    /\ update elements edge_game calm = Ok (self', w')
    /\ trace w' = trace calm ++ played
    /\ let new_head := proposed_head edge_game (1, 3) in
       let lost := unsafe edge_game (obstacles self1) new_head in
       (phase_after self' played = Some Lost <-> lost)
       /\ (lost -> cable self' = cable edge_game)
       /\ (~ lost -> cable self' = cable edge_game ++ [new_head])
       /\ (~ lost ->
           (phase_after self' played = Some Won <-> new_head = outlet edge_game)
           /\ (phase_after self' played = Some Active
               <-> new_head <> outlet edge_game))
       /\ (length (cable self') = length (cable edge_game)
           \/ length (cable self') = S (length (cable edge_game))).
Proof.
  apply (TickFacts.update_outcome elements elements_order edge_game calm (1, 3));
    [reflexivity | reflexivity | exact edge_game_keys].
Defined.

(** [trail_never_crosses] on the 10 x 10 session after its first tick. *)
Lemma trail_never_crosses_witness :
  NoDup (cable session_next)
  /\ forall w head self' w',
       last (cable session_next) = Some head ->
       proposed_head session_next head ∈ cable session_next ->
       update elements session_next w = Ok (self', w') ->
       cable self' = cable session_next /\ running self' = false
       /\ trace w' = trace w ++ [FailSound].
Proof.
  apply (SessionFacts.trail_never_crosses elements elements_order session_next).
  exact session_next_reachable.
Defined.



(** [correlated_obstacles_exact] for four obstacles on a 5 x 5 grid. *)
Lemma correlated_obstacles_exact_witness :
  let s : gset Cell := list_to_set [(4, 0); (3, 1); (2, 2); (4, 2)] in
  Z.of_nat (size s) = 4
  /\ (forall c, c ∈ s -> in_grid (fresh 5 5) c)
  /\ (forall start, head (cable (fresh 5 5)) = Some start -> start ∉ s)
  /\ ((1, height (fresh 5 5) - 2) ∉ s)
  /\ exists seeds : gset Cell,
       Z.of_nat (size seeds) = 4 / 4
       /\ (forall c, c ∈ seeds -> seedable (fresh 5 5) c)
       /\ grown (fresh 5 5) seeds s.
Proof.
  apply (GeneratorFacts.correlated_obstacles_exact elements elements_order
           (fresh 5 5) 20 4 session_world);
    [lia | reflexivity | vm_compute; reflexivity].
Defined.

(** [outlet_far] on the 5 x 5 session. *)
Lemma outlet_far_witness :
  in_grid edge_game (3, 1)
  /\ ((3, 1) ∉ obstacles edge_game)
  /\ exists start, head (cable edge_game) = Some start
       /\ (3, 1) <> start
       /\ (inject_Z (nearest_double (width edge_game)) / 2
           < inject_Z (manhattan (3%Z, 1%Z) start))%Q
       /\ (width edge_game <= 2 ^ 53 ->
           (inject_Z (width edge_game) / 2
            < inject_Z (manhattan (3%Z, 1%Z) start))%Q
           /\ width edge_game < 2 * manhattan (3, 1) start).
Proof.
  apply (GeneratorFacts.outlet_far edge_game 20 session_world (3, 1)).
  vm_compute. reflexivity.
Defined.

(** On a grid of 2^54 + 2 columns [self.width / 2] is the double 2^53,
    one less than half the width: [_generate_outlet] returns the cell
    (2^53 + 2, 1), whose distance from the start (1, 1) is 2^53 + 1,
    half the width and no more. *)
Lemma outlet_at_half_width :
  value_of (_generate_outlet wide_game 1 wide_world) = Ok (2 ^ 53 + 2, 1)
  /\ head (cable wide_game) = Some (1, 1)
  /\ nearest_double (width wide_game) = 2 ^ 54
  /\ 2 * manhattan (2 ^ 53 + 2, 1) (1, 1) = width wide_game
  /\ ~ (inject_Z (width wide_game) / 2
        < inject_Z (manhattan (2 ^ 53 + 2, 1)%Z (1, 1)%Z))%Q.
Proof.
  split_and!;
    [vm_compute; reflexivity | reflexivity | reflexivity | reflexivity |].
  vm_compute. intros [=].
Qed.

(** [few_obstacles_raise] for three obstacles on a 5 x 5 grid. *)
Lemma few_obstacles_raise_witness :
  (forall s, value_of (_generate_correlated_obstacles elements (fresh 5 5)
                         20 3 session_world) <> Ok s)
  /\ (20%nat <> 0%nat ->
      _generate_correlated_obstacles elements (fresh 5 5) 20 3 session_world
      = Raise IndexError).
Proof.
  apply (GeneratorFacts.few_obstacles_raise elements elements_order
           (fresh 5 5) 20 3 session_world).
  lia.
Defined.

(** [obstacle_count_never_grows] on the session whose two obstacles meet. *)
Lemma obstacle_count_never_grows_witness :
  (size (obstacles merged_game) <= size (obstacles merge_game))%nat
  /\ dom (obstacle_directions merged_game) = obstacles merged_game
  /\ (size (obstacles merged_next) <= size (obstacles merge_game))%nat
  /\ exists merged,
       value_of (_update_obstacles elements merge_game calm) = Ok merged
       /\ (size (obstacles merged) < size (obstacles merge_game))%nat.
Proof.
  apply (SessionFacts.obstacle_count_never_grows elements elements_order
           merge_game calm merged_game merged_next);
    [vm_compute; reflexivity | exact merge_game_steps].
Defined.

End Runs.

(** * Further properties *)

(** ** The neighbours the growth phase chooses from *)

Module NeighborFacts.
Import CableGame CableLoop ObstacleFacts TickFacts GeneratorFacts.

(** A loop whose body neither draws nor fails is a fold. *)
Lemma for_each_pure {A S} (g : S -> A -> S) (l : list A)
    (body : S -> A -> M S) :
  (forall acc x w, body acc x w = Ok (g acc x, w)) ->
  forall acc w, for_each l body acc w = Ok (fold_left g l acc, w).
Proof.
  intros Hbody. induction l as [|x l IH]; intros acc w; simpl; [done|].
  by rewrite (bind_Ok_l _ _ _ _ _ (Hbody acc x w)).
Qed.

Lemma elem_of_kept self c0 c x :
  x ∈ kept self c0 c <-> x = c /\ in_grid self c /\ c <> c0.
Proof.
  unfold kept, cell_eqb.
  destruct (_ && negb _) eqn:Htest.
  - apply andb_true_iff in Htest as [Hgrid Hne].
    apply in_grid_test in Hgrid.
    apply negb_true_iff, bool_decide_eq_false in Hne.
    rewrite list_elem_of_singleton. tauto.
  - rewrite elem_of_nil. split; [done|]. intros (-> & Hgrid & Hne).
    apply in_grid_test in Hgrid. rewrite Hgrid in Htest.
    simpl in Htest. apply negb_false_iff, bool_decide_eq_true in Htest. done.
Qed.

Lemma adjacent_cases (pos c : Cell) :
  adjacent pos c <->
  c ∈ [(pos.1 + -1, pos.2 + -1); (pos.1 + -1, pos.2 + 0);
       (pos.1 + -1, pos.2 + 1); (pos.1 + 0, pos.2 + -1);
       (pos.1 + 0, pos.2 + 1); (pos.1 + 1, pos.2 + -1);
       (pos.1 + 1, pos.2 + 0); (pos.1 + 1, pos.2 + 1)].
Proof.
  unfold adjacent. destruct pos as [px py], c as [cx cy]. simpl.
  rewrite !elem_of_cons, elem_of_nil. split.
  - intros (Hne & Hx & Hy).
    assert (cx = px + -1 \/ cx = px + 0 \/ cx = px + 1) as Hcx by lia.
    assert (cy = py + -1 \/ cy = py + 0 \/ cy = py + 1) as Hcy by lia.
    destruct Hcx as [-> | [-> | ->]], Hcy as [-> | [-> | ->]]; try tauto.
    exfalso. apply Hne. f_equal; lia.
  - intros H. repeat destruct H as [H|H]; try done;
      injection H as ? ?; subst; (split; [intros [= ? ?]; lia|lia]).
Qed.

Lemma neighbor_body self pos c0 dx nb dy w :
  head (cable self) = Some c0 ->
  (if (dx =? 0) && (dy =? 0) then ret nb
   else
     let new_x := pos.1 + dx in
     let new_y := pos.2 + dy in
     if (0 <=? new_x) && (new_x <? width self)
        && (0 <=? new_y) && (new_y <? height self)
     then
       c0 <- first_item (cable self) ;;
       if negb (cell_eqb (new_x, new_y) c0)
       then ret (nb ++ [(new_x, new_y)])
       else ret nb
     else ret nb) w
  = Ok (if (dx =? 0) && (dy =? 0) then nb
        else nb ++ kept self c0 (pos.1 + dx, pos.2 + dy), w).
Proof.
  intros Hc0. destruct ((dx =? 0) && (dy =? 0)); [done|].
  cbv zeta. unfold kept. cbn [fst snd].
  destruct (_ && (_ <? height self)); [|by rewrite app_nil_r].
  rewrite (bind_Ok_l _ _ w c0 w) by (by apply first_item_Ok).
  destruct (negb _); simpl; [done|by rewrite app_nil_r].
Qed.

Lemma get_valid_neighbors_eq self pos c0 w :
  head (cable self) = Some c0 ->
  _get_valid_neighbors self pos w
  = Ok ([(pos.1 + -1, pos.2 + -1); (pos.1 + -1, pos.2 + 0);
         (pos.1 + -1, pos.2 + 1); (pos.1 + 0, pos.2 + -1);
         (pos.1 + 0, pos.2 + 1); (pos.1 + 1, pos.2 + -1);
         (pos.1 + 1, pos.2 + 0); (pos.1 + 1, pos.2 + 1)]
        ≫= kept self c0, w).
Proof.
  intros Hc0. unfold _get_valid_neighbors.
  rewrite (for_each_pure
    (fun nb dx => fold_left (fun nb dy =>
       if (dx =? 0) && (dy =? 0) then nb
       else nb ++ kept self c0 (pos.1 + dx, pos.2 + dy)) [-1; 0; 1] nb)).
  - cbn [fold_left Z.eqb andb mbind list_bind]. f_equal. f_equal.
    cbn [app]. by rewrite app_nil_r, <- !app_assoc.
  - intros nb dx w1. apply for_each_pure. intros nb1 dy w2.
    by apply neighbor_body.
Qed.

(** X1: with a trail that has a start cell, [_get_valid_neighbors] returns
    without touching the random source; its list holds each cell once,
    and holds exactly the cells next to [pos] (sideways, up, down or
    diagonally) that lie inside the grid and are not the start of the
    trail; so it has at most eight entries. *)
Theorem valid_neighbors_exact (self : Game) (pos start : Cell) (w : World) :
  head (cable self) = Some start ->
  exists neighbors,
    _get_valid_neighbors self pos w = Ok (neighbors, w)
    /\ NoDup neighbors
    /\ (length neighbors <= 8)%nat
    /\ forall c, c ∈ neighbors <->
         adjacent pos c /\ in_grid self c /\ c <> start.
Proof.
  intros Hstart. eexists. split; [by apply get_valid_neighbors_eq|].
  set (around := [(pos.1 + -1, pos.2 + -1); (pos.1 + -1, pos.2 + 0);
                  (pos.1 + -1, pos.2 + 1); (pos.1 + 0, pos.2 + -1);
                  (pos.1 + 0, pos.2 + 1); (pos.1 + 1, pos.2 + -1);
                  (pos.1 + 1, pos.2 + 0); (pos.1 + 1, pos.2 + 1)]).
  assert (NoDup around) as Hnd.
  { unfold around. repeat (apply NoDup_cons; split;
      [rewrite ?elem_of_cons, elem_of_nil; intros H;
       repeat destruct H as [H|H]; try done; injection H; lia|]).
    apply NoDup_nil_2. }
  assert (forall c, length (kept self start c) <= 1)%nat as Hlen.
  { intros c. unfold kept. destruct (_ && negb _); simpl; lia. }
  split_and!.
  - apply NoDup_bind; [|intros c _; unfold kept; destruct (_ && negb _);
                                    [apply NoDup_singleton|apply NoDup_nil_2]
                       |done].
    intros c1 c2 x _ _ (-> & _)%elem_of_kept (-> & _)%elem_of_kept. done.
  - unfold around. cbn [mbind list_bind]. rewrite !length_app.
    pose proof (Hlen (pos.1 + -1, pos.2 + -1)).
    pose proof (Hlen (pos.1 + -1, pos.2 + 0)).
    pose proof (Hlen (pos.1 + -1, pos.2 + 1)).
    pose proof (Hlen (pos.1 + 0, pos.2 + -1)).
    pose proof (Hlen (pos.1 + 0, pos.2 + 1)).
    pose proof (Hlen (pos.1 + 1, pos.2 + -1)).
    pose proof (Hlen (pos.1 + 1, pos.2 + 0)).
    pose proof (Hlen (pos.1 + 1, pos.2 + 1)).
    simpl. lia.
  - intros c. rewrite list_elem_of_bind, adjacent_cases. fold around.
    split.
    + intros (y & (-> & Hgrid & Hne)%elem_of_kept & Hy). done.
    + intros (Hc & Hgrid & Hne). exists c. split; [|done].
      by apply elem_of_kept.
Qed.

End NeighborFacts.

(** ** What a session keeps *)

Module InvariantFacts.
Import CableGame CableLoop ObstacleFacts TickFacts GeneratorFacts SessionFacts.

Lemma path_snoc (l : list Cell) (a : Cell) (d : Direction) :
  path l -> last l = Some a ->
  path (l ++ [(a.1 + (value d).1, a.2 + (value d).2)]).
Proof.
  induction l as [|x l IH]; [done|].
  destruct l as [|y l].
  - intros _ [= ->]. simpl. split; [by exists d|done].
  - intros [Hstep Hpath] Hlast. split; [done|]. by apply IH.
Qed.

(** No more distinct cells fit into the grid than it has. *)
Lemma grid_capacity self (l : list Cell) :
  NoDup l -> (forall c, c ∈ l -> in_grid self c) ->
  (length l <= grid_size self)%nat.
Proof.
  intros Hnd Hgrid. unfold grid_size.
  rewrite <- (length_seqZ 0 (width self)), <- (length_seqZ 0 (height self)).
  rewrite <- length_prod. apply submseteq_length, NoDup_submseteq; [done|].
  intros [x y] [Hx Hy]%Hgrid. apply list_elem_of_In, in_prod_iff.
  rewrite <- !list_elem_of_In, !elem_of_seqZ. simpl in *. lia.
Qed.

Lemma in_band_in_grid self c : in_band self c -> in_grid self c.
Proof. unfold in_band, in_grid. lia. Qed.

(** The record [handle_input] returns: only the heading and the running
    flag are written. *)
Lemma handle_input_eq self events :
  handle_input self events
  = set_running (set_direction self (direction (handle_input self events)))
                (running (handle_input self events)).
Proof.
  unfold handle_input. revert self.
  induction events as [|ev events IH]; intros self; [by destruct self|].
  simpl. rewrite IH at 1. destruct ev; [done| |done].
  by rewrite (HeadingFacts.process_direction_change_direction self key) at 1.
Qed.

Lemma process_direction_change_running self key :
  running (_process_direction_change self key) = running self.
Proof.
  by rewrite (HeadingFacts.process_direction_change_direction self key).
Qed.

Lemma handle_input_running self events :
  running (handle_input self events)
  = running self && negb (existsb is_quit events).
Proof.
  unfold handle_input. revert self.
  induction events as [|ev events IH]; intros self; simpl.
  - by rewrite andb_true_r.
  - rewrite IH. destruct ev; simpl.
    + by rewrite andb_false_r.
    + by rewrite process_direction_change_running.
    + done.
Qed.

Lemma handle_input_session_inv self events :
  session_inv self -> session_inv (handle_input self events).
Proof.
  intros (Hhead & Hnd & Hpath & Htail & Hdom & Hdirs & Hobs & Hout & Hwon).
  pose proof (handle_input_running self events) as Hrun.
  rewrite handle_input_eq. unfold session_inv. simpl.
  split_and!; try done.
  intros Hin. rewrite Hrun, (Hwon Hin). done.
Qed.

Lemma random_direction_heading w d w' :
  _random_direction w = Ok (d, w') -> is_heading d.
Proof. unfold _random_direction, is_heading. apply random_choice_elem. Qed.

Lemma heading_step (c : Cell) (d : Z * Z) :
  is_heading d -> manhattan c (c.1 + d.1, c.2 + d.2) = 1.
Proof.
  unfold is_heading, manhattan. rewrite !elem_of_cons, elem_of_nil.
  intros H. repeat destruct H as [H|H]; try done; subst d; simpl; lia.
Qed.

(** Every heading the loop of [_update_obstacles] stores is one of the
    four unit vectors, if those it started from are. *)
Lemma move_obstacle_headings self dirs no nd obs w dirs' no' nd' w' :
  map_Forall (fun _ d => is_heading d) dirs ->
  map_Forall (fun _ d => is_heading d) nd ->
  move_obstacle self (dirs, no, nd) obs w = Ok (dirs', no', nd', w') ->
  map_Forall (fun _ d => is_heading d) dirs'
  /\ map_Forall (fun _ d => is_heading d) nd'
  /\ forall c, c ∈ no' -> c ∈ no \/ manhattan obs c <= 1.
Proof.
  intros Hdirs Hnd. unfold move_obstacle.
  intros (r & w1 & _ & (dirs1 & w2 & Hroll & Hrest)%bind_Ok)%bind_Ok.
  assert (map_Forall (fun _ d => is_heading d) dirs1) as Hdirs1.
  { destruct (lt_0_1 r).
    - apply bind_Ok in Hroll as (d0 & w3 & Hd0%random_direction_heading
                                  & [= <- _]).
      by apply map_Forall_insert_2.
    - by injection Hroll as <- _. }
  apply bind_Ok in Hrest as (d & w3 & [Hd ->]%getitem_Ok & Hrest).
  pose proof (Hdirs1 _ _ Hd) as Hhd. cbv zeta in Hrest.
  destruct (accepts self _).
  - apply bind_Ok in Hrest as (d1 & w4 & [Hd1 ->]%getitem_Ok & [= <- <- <- _]).
    split; [done|]. split; [apply map_Forall_insert_2; eauto|].
    intros c [->%elem_of_singleton|Hc]%elem_of_union; [|by left].
    right. by rewrite heading_step.
  - apply bind_Ok in Hrest as (d1 & w4 & Hd1%random_direction_heading & Hrest).
    apply bind_Ok in Hrest as (d2 & w5 & [Hd2 ->]%getitem_Ok & [= <- <- <- _]).
    rewrite lookup_insert_eq in Hd2. injection Hd2 as <-.
    split; [by apply map_Forall_insert_2|].
    split; [by apply map_Forall_insert_2|].
    intros c [->%elem_of_singleton|Hc]%elem_of_union; [|by left].
    right. unfold manhattan. lia.
Qed.

Section SetOrder.

Context (set_iter : gset Cell -> list Cell).
Context (set_iter_perm : forall s, set_iter s ≡ₚ elements s).

Lemma update_obstacles_headings self w self' w' :
  map_Forall (fun _ d => is_heading d) (obstacle_directions self) ->
  _update_obstacles set_iter self w = Ok (self', w') ->
  map_Forall (fun _ d => is_heading d) (obstacle_directions self')
  /\ forall c, c ∈ obstacles self' ->
       exists obs, obs ∈ obstacles self /\ manhattan obs c <= 1.
Proof.
  intros Hdirs. unfold _update_obstacles.
  intros ([[dirs' no'] nd'] & w1 & Hloop & [= <- _])%bind_Ok. simpl.
  eapply (for_each_inv (fun st : Moving =>
            map_Forall (fun _ d => is_heading d) st.1.1
            /\ map_Forall (fun _ d => is_heading d) st.2
            /\ forall c, c ∈ st.1.2 ->
                 exists obs, obs ∈ obstacles self /\ manhattan obs c <= 1))
    in Hloop as (_ & Hnd' & Hnear); [done| |].
  - intros [[dirs no] nd] obs w2 [[dirs2 no2] nd2] w2'
      Hobs%(elem_of_set_iter set_iter set_iter_perm) (Hd & Hn & Hnear) Hbody.
    destruct (move_obstacle_headings _ _ _ _ _ _ _ _ _ _ Hd Hn Hbody)
      as (Hd2 & Hn2 & Hstep).
    simpl. split_and!; [done|done|].
    intros c Hc. destruct (Hstep c Hc) as [Hold|Hnew]; [by apply Hnear|].
    by exists obs.
  - simpl. split_and!; [done|apply map_Forall_empty|by intros c ?%elem_of_empty].
Qed.

Lemma grow_loop_grown (self : Game) (fuel : nat) (N : Z) (seeds obstacles : gset Cell)
    (w : World) (s : gset Cell) (w' : World) :
  grow_loop set_iter self fuel N obstacles w = Ok (s, w') ->
  grown self seeds obstacles -> grown self seeds s.
Proof.
  revert obstacles w. induction fuel as [|fuel IH]; intros obs w; [discriminate|].
  simpl. destruct (Z.of_nat (size obs) <? N); [|by intros [= <- _]].
  intros (existing & w1 & Hex & (nb & w2 & Hnb & Hrun)%bind_Ok)%bind_Ok Hobs.
  apply random_choice_elem, (elem_of_set_iter set_iter set_iter_perm) in Hex.
  pose proof (get_valid_neighbors_Ok _ _ _ _ _ Hnb) as Hgrow.
  destruct nb as [|n0 nb]; [by eapply IH|].
  apply bind_Ok in Hrun as (new_pos & w3 & Hnew & Hrun).
  apply random_choice_elem, Hgrow in Hnew as (Hadj & Hgrid & Hstart).
  unfold in_set in Hrun. case_bool_decide as Hin; simpl in Hrun; [by eapply IH|].
  eapply IH; [exact Hrun|]. by eapply grown_add.
Qed.

(** Whatever the count asked for, the cells of a returning
    [_generate_correlated_obstacles] are inside the grid and off the
    start of the trail. *)
Lemma correlated_obstacles_cells (self : Game) (fuel : nat) (N : Z)
    (w : World) (s : gset Cell) (w' : World) :
  _generate_correlated_obstacles set_iter self fuel N w = Ok (s, w') ->
  forall c, c ∈ s -> in_grid self c /\ head (cable self) <> Some c.
Proof.
  unfold _generate_correlated_obstacles.
  intros (seeds & w1 & Hseed & Hgrow)%bind_Ok c Hc.
  apply seed_loop_Ok in Hseed as [Hseeds _];
    [|by intros ? ?%elem_of_empty|rewrite size_empty; lia].
  eapply grow_loop_grown in Hgrow; [|apply grown_seeds].
  destruct (grown_growable _ _ _ Hgrow c Hc) as [Hc1|]; [|done].
  by destruct (Hseeds c Hc1) as (? & ? & _).
Qed.

Lemma init_directions_headings (l : list Cell) (m : gmap Cell (Z * Z)) w m' w' :
  for_each l (fun m obs => d <- _random_direction ;; ret (<[obs := d]> m)) m w
  = Ok (m', w') ->
  map_Forall (fun _ d => is_heading d) m ->
  map_Forall (fun _ d => is_heading d) m'.
Proof.
  intros Hloop Hm.
  eapply (for_each_inv (map_Forall (fun _ d => is_heading d))); [|done..].
  intros m1 obs w1 m2 w2 _ Hm1
    (d & w3 & Hd%random_direction_heading & [= <- _])%bind_Ok.
  by apply map_Forall_insert_2.
Qed.

Lemma init_session_inv fuel wd ht N w self :
  value_of (__init__ set_iter fuel wd ht N w) = Ok self -> session_inv self.
Proof.
  intros Hinit. pose proof (init_Ok set_iter set_iter_perm _ _ _ _ _ _ Hinit)
    as (Hwd & Hht & Hcable & _ & _ & Hdom).
  apply value_of_Ok in Hinit as [w' Hrun]. unfold __init__ in Hrun.
  apply bind_Ok in Hrun as (obs & w1 & Hgen & Hrun).
  apply bind_Ok in Hrun as (dirs & w2 & Hdirs & Hrun).
  apply bind_Ok in Hrun as (out & w3 & Hout & [= <-]).
  pose proof (correlated_obstacles_cells _ _ _ _ _ _ Hgen) as Hcells.
  clear Hgen. rename Hcells into Hgen.
  apply init_directions_headings in Hdirs; [|apply map_Forall_empty].
  apply generate_outlet_checked in Hout as (Hgrid & Hfree & start & Hstart & Hne & _).
  simpl in *. injection Hstart as <-.
  unfold session_inv. simpl. split_and!; try done.
  - apply NoDup_singleton.
  - by intros c ?%elem_of_nil.
  - intros c Hc. destruct (Hgen c Hc) as [Hin Hoff]. split_and!; [done| |].
    + intros ->%list_elem_of_singleton. done.
    + by intros ->.
  - by intros ->%list_elem_of_singleton.
Qed.

Lemma update_session_inv self w self' w' :
  session_inv self -> update set_iter self w = Ok (self', w') ->
  session_inv self'.
Proof.
  intros (Hhead & Hnd & Hpath & Htail & Hdom & Hdirs & Hobs & Hout & Hwon) Hupd.
  apply (update_Ok set_iter set_iter_perm) in Hupd
    as (self1 & w1 & tip & Hmove & Hlast & Hcases).
  pose proof (update_obstacles_Ok set_iter set_iter_perm _ _ _ _ Hmove)
    as (_ & Hself1 & Hdom1 & _ & Hfrom & _).
  pose proof (update_obstacles_headings _ _ _ _ Hdirs Hmove) as [Hdirs1 _].
  assert (forall c, c ∈ obstacles self1 ->
            in_grid self c /\ (c ∉ cable self) /\ c <> outlet self) as Hobs1.
  { intros c Hc. destruct (Hfrom c Hc) as [Hold|Hacc]; [by apply Hobs|].
    apply accepts_spec in Hacc as (Hband & ? & ?).
    split_and!; [by apply in_band_in_grid|done|done]. }
  assert (cable self <> []) as Hne by (by destruct (cable self)).
  assert (forall nh, head (cable self ++ [nh]) = head (cable self)) as Hhd
    by (by destruct (cable self)).
  assert (forall nh, tail (cable self ++ [nh]) = tail (cable self) ++ [nh])
    as Htl by (by destruct (cable self)).
  unfold proposed_head in Hcases. unfold session_inv.
  destruct Hcases as [(_ & -> & _)|[(Hsafe & Hwin & -> & _)
                                   |(Hsafe & Hnowin & -> & _)]];
    rewrite Hself1; simpl.
  - split_and!; done.
  - unfold unsafe in Hsafe. rewrite Hhd, Htl. split_and!; try done.
    + apply NoDup_app. split; [done|]. split; [|apply NoDup_singleton].
      intros x Hx ->%list_elem_of_singleton. tauto.
    + by apply path_snoc.
    + intros c [Hc| ->%list_elem_of_singleton]%elem_of_app; [by apply Htail|].
      destruct (decide (in_grid self (tip.1 + (value (direction self)).1,
                                      tip.2 + (value (direction self)).2)));
        [done|tauto].
    + intros c Hc. destruct (Hobs1 c Hc) as (? & ? & ?).
      split_and!; [done| |done].
      intros [?| ->%list_elem_of_singleton]%elem_of_app; [done|]. tauto.
  - unfold unsafe in Hsafe. rewrite Hhd, Htl. split_and!; try done.
    + apply NoDup_app. split; [done|]. split; [|apply NoDup_singleton].
      intros x Hx ->%list_elem_of_singleton. tauto.
    + by apply path_snoc.
    + intros c [Hc| ->%list_elem_of_singleton]%elem_of_app; [by apply Htail|].
      destruct (decide (in_grid self (tip.1 + (value (direction self)).1,
                                      tip.2 + (value (direction self)).2)));
        [done|tauto].
    + intros c Hc. destruct (Hobs1 c Hc) as (? & ? & ?).
      split_and!; [done| |done].
      intros [?| ->%list_elem_of_singleton]%elem_of_app; [done|]. tauto.
    + intros [Hin| Heq%list_elem_of_singleton]%elem_of_app; [by apply Hwon|].
      by rewrite Heq in Hnowin.
Qed.

Lemma step_session_inv self self' :
  step set_iter self self' -> session_inv self -> session_inv self'.
Proof.
  destruct 1 as [self events|self w self' [w' Hupd]%value_of_Ok].
  - apply handle_input_session_inv.
  - intros Hinv. by eapply update_session_inv.
Qed.

Lemma reachable_session_inv self :
  reachable set_iter self -> session_inv self.
Proof.
  intros (self0 & (fuel & wd & ht & N & w & Hinit) & Hsteps).
  apply init_session_inv in Hinit.
  induction Hsteps as [|x y z Hstep _ IH]; [done|].
  apply IH. by eapply step_session_inv.
Qed.

(** X2: in every state of a session the direction map has exactly the
    obstacle cells as keys, and the heading stored for an obstacle is one
    of (0, 1), (0, -1), (1, 0), (-1, 0). *)
Theorem directions_are_headings (self : Game) :
  reachable set_iter self ->
  dom (obstacle_directions self) = obstacles self
  /\ forall c, c ∈ obstacles self ->
       exists d, obstacle_directions self !! c = Some d /\ is_heading d.
Proof.
  intros (_ & _ & _ & _ & Hdom & Hdirs & _)%reachable_session_inv.
  split; [done|]. intros c Hc. rewrite <- Hdom in Hc.
  apply elem_of_dom in Hc as [d Hd]. exists d. split; [done|]. by eapply Hdirs.
Qed.

(** X3: in every state of a session each obstacle lies inside the grid,
    off the trail, and off the outlet. *)
Theorem obstacles_keep_clear (self : Game) (c : Cell) :
  reachable set_iter self ->
  c ∈ obstacles self ->
  in_grid self c /\ (c ∉ cable self) /\ c <> outlet self.
Proof.
  intros (_ & _ & _ & _ & _ & _ & Hobs & _)%reachable_session_inv Hc.
  by apply Hobs.
Qed.

(** X4: in every state of a session the trail starts at
    (1, height - 2), each of its cells is one step up, down, left or
    right of the cell before it, every cell after the first lies inside
    the grid, and the trail is at most one cell longer than the grid has
    cells. *)
Theorem trail_is_a_path (self : Game) :
  reachable set_iter self ->
  head (cable self) = Some (1, height self - 2)
  /\ path (cable self)
  /\ (forall c, c ∈ tail (cable self) -> in_grid self c)
  /\ (length (cable self) <= S (grid_size self))%nat.
Proof.
  intros (Hhead & Hnd & Hpath & Htail & _)%reachable_session_inv.
  split_and!; [done|done|done|].
  destruct (cable self) as [|c0 l]; simpl in *; [lia|].
  apply NoDup_cons in Hnd as [_ Hnd].
  pose proof (grid_capacity self l Hnd Htail). lia.
Qed.

Lemma step_constants self self' :
  step set_iter self self' ->
  width self' = width self /\ height self' = height self
  /\ outlet self' = outlet self
  /\ (running self = false -> running self' = false).
Proof.
  destruct 1 as [self events|self w self' [w' Hupd]%value_of_Ok].
  - split_and!; try (by rewrite handle_input_eq).
    intros Hrun. by rewrite handle_input_running, Hrun.
  - apply (update_Ok set_iter set_iter_perm) in Hupd
      as (self1 & w1 & tip & Hmove & _ & Hcases).
    apply (update_obstacles_Ok set_iter set_iter_perm) in Hmove
      as (_ & Hself1 & _).
    destruct Hcases as [(_ & -> & _)|[(_ & _ & -> & _)|(_ & _ & -> & _)]];
      rewrite Hself1; simpl; done.
Qed.

Lemma steps_constants self self' :
  rtc (step set_iter) self self' ->
  width self' = width self /\ height self' = height self
  /\ outlet self' = outlet self
  /\ (running self = false -> running self' = false).
Proof.
  induction 1 as [|x y z Hstep _ IH]; [done|].
  destruct (step_constants _ _ Hstep) as (Hw & Hh & Ho & Hr).
  destruct IH as (-> & -> & -> & Hr'). split_and!; try done.
  intros Hx. apply Hr', Hr, Hx.
Qed.

(** X5: no input and no tick changes the size of the grid or the outlet,
    and none sets [running] again once it is cleared; [handle_input]
    leaves [running] set exactly when it was set and the events hold no
    QUIT. *)
Theorem stopped_stays_stopped (self self' : Game) (events : list Event) :
  rtc (step set_iter) self self' ->
  width self' = width self /\ height self' = height self
  /\ outlet self' = outlet self
  /\ (running self = false -> running self' = false)
  /\ running (handle_input self events)
     = running self && negb (existsb is_quit events).
Proof.
  intros (? & ? & ? & ?)%steps_constants.
  split_and!; try done. apply handle_input_running.
Qed.

(** X6: in every state of a session [_update_obstacles] returns, and each
    obstacle cell it leaves is the cell of an obstacle from before the
    tick or one step up, down, left or right of it. *)
Theorem obstacles_move_one_cell (self : Game) (w : World) :
  reachable set_iter self ->
  exists self' w',
    _update_obstacles set_iter self w = Ok (self', w')
    /\ forall c, c ∈ obstacles self' ->
         exists obs, obs ∈ obstacles self /\ manhattan obs c <= 1.
Proof.
  intros (_ & _ & _ & _ & Hdom & Hdirs & _)%reachable_session_inv.
  destruct (update_obstacles_returns set_iter set_iter_perm self w)
    as (self' & w' & Hmove); [by rewrite Hdom|].
  exists self', w'. split; [done|].
  by eapply update_obstacles_headings.
Qed.

(** X20: in every state of a session the outlet lies inside the grid, and
    while the game is running the outlet is not on the trail: the tick
    that lays the trail onto the outlet clears [running]. *)
Theorem outlet_waits (self : Game) :
  reachable set_iter self ->
  in_grid self (outlet self)
  /\ (running self = true -> outlet self ∉ cable self).
Proof.
  intros (_ & _ & _ & _ & _ & _ & _ & Hgrid & Hwon)%reachable_session_inv.
  split; [done|]. intros Hrun Hin. by rewrite (Hwon Hin) in Hrun.
Qed.

End SetOrder.

End InvariantFacts.

(** ** Keys, the drawing and the game loop *)

Module LoopFacts.
Import CableGame CableLoop ObstacleFacts TickFacts GeneratorFacts SessionFacts
  InvariantFacts.

Lemma two_keys_direction self turn :
  perpendicular (direction self) turn = true ->
  direction (handle_input self [KEYDOWN (key_of turn);
                                KEYDOWN (key_of (opposite (direction self)))])
  = opposite (direction self).
Proof.
  destruct self as [wd ht cb d obs dirs out run]. simpl.
  by destruct d, turn.
Qed.

Lemma value_opposite d : value (opposite d) = (- (value d).1, - (value d).2).
Proof. by destruct d. Qed.

(** The rectangles [draw] fills for the obstacles, when each has a
    heading. *)
Lemma draw_obstacles (dirs : gmap Cell (Z * Z)) (l : list Cell)
    (drawn : list (Rect * Color)) w :
  (forall o, o ∈ l -> is_Some (dirs !! o)) ->
  for_each l (fun drawn obstacle =>
      d <- getitem dirs obstacle ;;
      ret (drawn ++ [(cell_rect obstacle, obstacle_color d)])) drawn w
  = Ok (drawn ++ map (fun o => (cell_rect o,
                                obstacle_color (default (0, 0) (dirs !! o)))) l,
        w).
Proof.
  revert drawn. induction l as [|o l IH]; intros drawn Hkeys; simpl.
  - by rewrite app_nil_r.
  - destruct (Hkeys o) as [d Hd]; [by left|].
    rewrite (bind_Ok_l _ _ w (drawn ++ [(cell_rect o, obstacle_color d)]) w).
    + rewrite IH by (intros; apply Hkeys; by right).
      by rewrite Hd, <- app_assoc.
    + by rewrite (bind_Ok_l _ _ _ _ _ (getitem_Some _ _ _ w Hd)).
Qed.

Lemma heading_color d :
  is_heading d ->
  obstacle_color d ∈ [(128, 128, 160); (160, 160, 128);
                      (160, 128, 128); (128, 160, 128)].
Proof.
  unfold is_heading. rewrite !elem_of_cons, elem_of_nil.
  intros H. repeat destruct H as [H|H]; try done; subst d; simpl; tauto.
Qed.

Section SetOrder.

Context (set_iter : gset Cell -> list Cell).
Context (set_iter_perm : forall s, set_iter s ≡ₚ elements s).

(** X7: two key presses handled on the same pass of the loop, a turn and
    then the heading opposite to the one the trail was laid along,
    reverse the heading; the tick that follows proposes the cell before
    the head, so the trail stays as it is, the game stops and the fail
    sound is played. *)
Theorem two_keys_reverse (self : Game) (turn : Direction) (w : World)
    (l : list Cell) (a : Cell) (self' : Game) (w' : World) :
  perpendicular (direction self) turn = true ->
  cable self = l ++ [a; (a.1 + (value (direction self)).1,
                         a.2 + (value (direction self)).2)] ->
  update set_iter
    (handle_input self [KEYDOWN (key_of turn);
                        KEYDOWN (key_of (opposite (direction self)))]) w
  = Ok (self', w') ->
  direction (handle_input self [KEYDOWN (key_of turn);
                                KEYDOWN (key_of (opposite (direction self)))])
  = opposite (direction self)
  /\ cable self' = cable self
  /\ running self' = false
  /\ trace w' = trace w ++ [FailSound].
Proof.
  intros Hturn Hcable Hupd.
  pose proof (two_keys_direction self turn Hturn) as Hdir.
  split; [done|]. revert Hupd Hdir.
  destruct (handle_input_fields self
              [KEYDOWN (key_of turn);
               KEYDOWN (key_of (opposite (direction self)))])
    as (Hc & _ & _).
  generalize dependent (handle_input self
              [KEYDOWN (key_of turn);
               KEYDOWN (key_of (opposite (direction self)))]).
  intros pressed Hc Hupd Hdir.
  apply (update_Ok set_iter set_iter_perm) in Hupd
    as (self1 & w1 & tip & Hmove & Hlast & Hcases).
  apply (update_obstacles_Ok set_iter set_iter_perm) in Hmove
    as (_ & Hself1 & _).
  assert (cable self1 = cable self) as Hc1 by (by rewrite Hself1).
  rewrite Hc, Hcable, last_app in Hlast. simpl in Hlast. injection Hlast as <-.
  assert (proposed_head pressed
            (a.1 + (value (direction self)).1,
             a.2 + (value (direction self)).2) = a) as Hback.
  { unfold proposed_head. rewrite Hdir, value_opposite. simpl.
    destruct a as [ax ay]. simpl. f_equal; lia. }
  assert (a ∈ cable pressed) as Hin.
  { rewrite Hc, Hcable. apply elem_of_app. right. by left. }
  cbv zeta in Hcases. rewrite Hback in Hcases.
  destruct Hcases as [(_ & -> & Htr)|[(Hsafe & _)|(Hsafe & _)]].
  - done.
  - exfalso. apply Hsafe. right. by left.
  - exfalso. apply Hsafe. right. by left.
Qed.

Lemma draw_returns self w :
  dom (obstacle_directions self) = obstacles self ->
  draw set_iter self w
  = Ok (map (fun o => (cell_rect o,
              obstacle_color (default (0, 0) (obstacle_directions self !! o))))
            (set_iter (obstacles self))
        ++ map (fun segment => (cell_rect segment, (0, 255, 0))) (cable self)
        ++ [(cell_rect (outlet self), (255, 0, 0))], w).
Proof.
  intros Hdom. unfold draw.
  assert (forall o, o ∈ set_iter (obstacles self) ->
            is_Some (obstacle_directions self !! o)) as Hkeys.
  { intros o Ho%(elem_of_set_iter set_iter set_iter_perm).
    apply elem_of_dom. by rewrite Hdom. }
  by rewrite (bind_Ok_l _ _ _ _ _
                (draw_obstacles (obstacle_directions self)
                   (set_iter (obstacles self)) [] w Hkeys)).
Qed.

(** X8: in every state of a session [draw] returns, without a KeyError
    and without drawing from the random source; it fills one rectangle
    per obstacle, one per trail cell and one for the outlet, the outlet
    last; each obstacle is tinted by its heading with one of the four
    tints, never left grey. *)
Theorem draw_never_fails (self : Game) (w : World) :
  reachable set_iter self ->
  exists frame,
    draw set_iter self w = Ok (frame, w)
    /\ length frame = (size (obstacles self) + length (cable self) + 1)%nat
    /\ last frame = Some (cell_rect (outlet self), (255, 0, 0))
    /\ (forall segment, segment ∈ cable self ->
          (cell_rect segment, (0, 255, 0)) ∈ frame)
    /\ forall o, o ∈ obstacles self ->
         exists d, obstacle_directions self !! o = Some d
           /\ (cell_rect o, obstacle_color d) ∈ frame
           /\ obstacle_color d ∈ [(128, 128, 160); (160, 160, 128);
                                  (160, 128, 128); (128, 160, 128)].
Proof.
  intros (_ & _ & _ & _ & Hdom & Hdirs & _)%(reachable_session_inv
                                              set_iter set_iter_perm).
  eexists. split; [by apply draw_returns|]. split_and!.
  - rewrite !length_app, !length_map, (length_set_iter set_iter set_iter_perm).
    simpl. lia.
  - by rewrite !app_assoc, last_snoc.
  - intros segment Hseg. apply elem_of_app. right. apply elem_of_app. left.
    apply (list_elem_of_fmap_2 (fun segment => (cell_rect segment, (0, 255, 0)))).
    done.
  - intros o Ho. assert (o ∈ dom (obstacle_directions self)) as Hk
      by (by rewrite Hdom).
    apply elem_of_dom in Hk as [d Hd]. exists d. split_and!; [done| |].
    + apply elem_of_app. left.
      apply (list_elem_of_fmap_2' (fun o => (cell_rect o,
               obstacle_color (default (0, 0) (obstacle_directions self !! o))))
               _ o); [by apply (elem_of_set_iter set_iter set_iter_perm)|].
      by rewrite Hd.
    + apply heading_color. by eapply Hdirs.
Qed.

Lemma session_inv_length self :
  session_inv self -> (1 <= length (cable self) <= S (grid_size self))%nat.
Proof.
  intros (Hhead & Hnd & _ & Htail & _).
  destruct (cable self) as [|c0 l]; simpl in *; [done|].
  apply NoDup_cons in Hnd as [_ Hnd].
  pose proof (grid_capacity self l Hnd Htail). lia.
Qed.

Lemma session_inv_well_formed self : session_inv self -> well_formed self.
Proof.
  intros (Hhead & _ & _ & _ & Hdom & _). split; [|by rewrite Hdom].
  by destruct (cable self).
Qed.

(** The loop of [run] ends: every pass that leaves the game running has
    laid a new cell, and the grid has room for only so many. *)
Lemma run_ends_from (fuel : nat) :
  forall self frames w,
    session_inv self ->
    (S (grid_size self) - length (cable self) + 2 <= fuel)%nat ->
    exists self' w',
      run set_iter fuel self frames w = Ok (self', w')
      /\ running self' = false
      /\ rtc (step set_iter) self self'.
Proof.
  induction fuel as [|fuel IH]; intros self frames w Hinv Hfuel; [lia|].
  simpl. destruct (running self) eqn:Hrun; [|by exists self, w].
  pose proof (handle_input_session_inv self (hd [] frames) Hinv) as Hinv0.
  pose proof (step_input set_iter self (hd [] frames)) as Hstep0.
  pose proof (handle_input_fields self (hd [] frames)) as (Hc0 & _ & _).
  generalize dependent (handle_input self (hd [] frames)).
  intros pressed Hinv0 Hstep0 Hc0.
  destruct (update_returns set_iter set_iter_perm pressed w
              (session_inv_well_formed _ Hinv0)) as (self1 & w1 & Hupd).
  rewrite (bind_Ok_l _ _ _ _ _ Hupd).
  pose proof (update_session_inv set_iter set_iter_perm _ _ _ _ Hinv0 Hupd)
    as Hinv1.
  assert (step set_iter pressed self1) as Hstep1
    by (apply (step_update set_iter _ w); by rewrite Hupd).
  assert (rtc (step set_iter) self self1) as Hsteps
    by (eapply rtc_l; [exact Hstep0|by apply rtc_once]).
  assert (dom (obstacle_directions self1) = obstacles self1) as Hdom1
    by (by destruct Hinv1 as (_ & _ & _ & _ & ? & _)).
  rewrite (bind_Ok_l _ _ _ _ _ (draw_returns self1 w1 Hdom1)).
  destruct (running self1) eqn:Hrun1.
  - assert (length (cable self1) = S (length (cable self))) as Hgrew.
    { apply (update_Ok set_iter set_iter_perm) in Hupd
        as (selfm & wm & tip & Hmove & _ & Hcases).
      apply (update_obstacles_Ok set_iter set_iter_perm) in Hmove
        as (_ & Hselfm & _).
      destruct Hcases as [(_ & -> & _)|[(_ & _ & -> & _)|(_ & _ & -> & _)]];
        [done|done|].
      simpl. rewrite length_app, Hc0. simpl. lia. }
    assert (grid_size self1 = grid_size self) as Hgrid.
    { destruct (step_constants set_iter set_iter_perm _ _ Hstep0)
        as (Hw0 & Hh0 & _).
      destruct (step_constants set_iter set_iter_perm _ _ Hstep1)
        as (Hw1 & Hh1 & _).
      unfold grid_size. by rewrite Hw1, Hh1, Hw0, Hh0. }
    pose proof (session_inv_length _ Hinv1) as Hlen1.
    destruct (IH self1 (tl frames) w1 Hinv1) as (self' & w' & Hrun' & Hstop & Hrest);
      [lia|].
    exists self', w'. split_and!; [done|done|by etrans].
  - destruct fuel as [|fuel]; [lia|]. simpl. rewrite Hrun1.
    by exists self1, w1.
Qed.

(** X9: from every state of a session [run] comes to an end: given
    width * height + 3 passes or more, it returns, for any input and any
    draws, with [running] cleared, in a state the session reaches by
    inputs and ticks. *)
Theorem run_ends (self : Game) (frames : list (list Event)) (w : World)
    (fuel : nat) :
  reachable set_iter self ->
  (grid_size self + 3 <= fuel)%nat ->
  exists self' w',
    run set_iter fuel self frames w = Ok (self', w')
    /\ running self' = false
    /\ reachable set_iter self'.
Proof.
  intros Hreach Hfuel.
  pose proof (reachable_session_inv set_iter set_iter_perm _ Hreach) as Hinv.
  pose proof (session_inv_length _ Hinv).
  destruct (run_ends_from fuel self frames w Hinv) as (self' & w' & ? & ? & Hsteps);
    [lia|].
  exists self', w'. split_and!; [done|done|].
  destruct Hreach as (self0 & Hinit & Hsteps0). exists self0.
  split; [done|by etrans].
Qed.

End SetOrder.

End LoopFacts.

(** ** The generators at the edges of their input *)

Module GeneratorEdges.
Import CableGame CableLoop ObstacleFacts TickFacts GeneratorFacts SessionFacts
  InvariantFacts NeighborFacts LoopFacts.

Lemma randint_empty a b w : b < a -> random_randint a b w = Raise ValueError.
Proof.
  intros Hab. unfold random_randint.
  by destruct (Z.ltb_spec b a); [|lia].
Qed.

Lemma randint_returns a b w :
  a <= b -> exists r, random_randint a b w = Ok (r, rest w) /\ a <= r <= b.
Proof.
  intros Hab. unfold random_randint.
  destruct (Z.ltb_spec b a); [lia|].
  eexists. split; [reflexivity|].
  pose proof (Z.mod_pos_bound (Z.of_N (tape w 0%nat)) (b - a + 1)). lia.
Qed.

(** Drawing a random cell of a grid without columns or without rows
    fails. *)
Lemma random_cell_fails {A} (wd ht : Z) (k : Z -> Z -> M A) w :
  wd <= 0 \/ ht <= 0 ->
  (x <- random_randint 0 (wd - 1) ;;
   y <- random_randint 0 (ht - 1) ;; k x y) w = Raise ValueError.
Proof.
  intros Hdim. destruct (Z.le_gt_cases wd 0) as [Hwd|Hwd].
  - apply bind_Raise_l, randint_empty. lia.
  - destruct Hdim as [?|Hht]; [lia|].
    destruct (randint_returns 0 (wd - 1) w) as (x & Hx & _); [lia|].
    rewrite (bind_Ok_l _ _ _ _ _ Hx). apply bind_Raise_l, randint_empty. lia.
Qed.

Lemma bind_OutOfFuel_l {A B} (c : M A) (k : A -> M B) w :
  c w = OutOfFuel -> bind c k w = OutOfFuel.
Proof. unfold bind. by intros ->. Qed.

Lemma quarter (N : Z) : (0 < N / 4 <-> 4 <= N) /\ (N / 4 <= N \/ N < 0).
Proof.
  pose proof (Z.div_mod N 4). pose proof (Z.mod_pos_bound N 4). lia.
Qed.

(** X10: on a grid of fewer than 2^1024 columns, where no cell is left
    for the outlet, because every cell is an obstacle, the start of the
    trail, or no farther from the start than [self.width / 2] (half the
    double nearest to the width), [_generate_outlet] never returns and
    never fails: it is still looping when any budget of passes is used
    up. *)
Theorem outlet_may_never_come (self : Game) (start : Cell) (fuel : nat)
    (w : World) :
  head (cable self) = Some start ->
  1 <= width self < 2 ^ 1024 -> 1 <= height self ->
  (forall c, in_grid self c ->
     c ∈ obstacles self \/ c = start
     \/ 2 * manhattan c start <= nearest_double (width self)) ->
  _generate_outlet self fuel w = OutOfFuel.
Proof.
  intros Hstart Hwd Hht Hnone. revert w.
  induction fuel as [|fuel IH]; intros w; [done|]. simpl.
  destruct (randint_returns 0 (width self - 1) w) as (x & Hx & ?); [lia|].
  rewrite (bind_Ok_l _ _ _ _ _ Hx).
  destruct (randint_returns 0 (height self - 1) (rest w)) as (y & Hy & ?);
    [lia|].
  rewrite (bind_Ok_l _ _ _ _ _ Hy).
  cbv zeta. unfold in_set, cell_eqb.
  case_bool_decide as Hobs; simpl; [apply IH|].
  rewrite (bind_Ok_l _ _ _ start (rest (rest w))) by (by apply first_item_Ok).
  case_bool_decide as Hne; simpl; [apply IH|].
  rewrite (bind_Ok_l _ _ _ start (rest (rest w))) by (by apply first_item_Ok).
  rewrite (bind_Ok_l _ _ _ _ _ (true_divide_2_returns (width self) _
                                   ltac:(lia))).
  destruct (int_gt_float _ _) eqn:Hfar; [|apply IH].
  apply gt_half_spec, gt_half_Z in Hfar.
  destruct (Hnone (x, y)) as [?|[?|Hnear]];
    [unfold in_grid; simpl; lia|done|done|].
  unfold manhattan in Hnear. simpl in *. lia.
Qed.

(** X21: on a grid of 2^1025 columns or more [self.width / 2] is too
    large for a double: [_generate_outlet] never returns a cell, and when
    the first cell it draws is neither an obstacle nor the start of the
    trail it raises OverflowError. *)
Theorem outlet_overflow (self : Game) (start : Cell) (fuel : nat) (w : World) :
  2 ^ 1025 <= width self ->
  (forall pos, value_of (_generate_outlet self fuel w) <> Ok pos)
  /\ (forall x w1 y w2,
        head (cable self) = Some start ->
        random_randint 0 (width self - 1) w = Ok (x, w1) ->
        random_randint 0 (height self - 1) w1 = Ok (y, w2) ->
        (x, y) ∉ obstacles self ->
        (x, y) <> start ->
        _generate_outlet self (S fuel) w = Raise OverflowError).
Proof.
  intros Hwd.
  assert (forall w0, true_divide_2 (width self) w0 = Raise OverflowError)
    as Hdiv.
  { intros w0. unfold true_divide_2.
    pose proof (nearest_double_big _ Hwd) as Hbig.
    destruct (Z.leb_spec (2 ^ 1025) (Z.abs (nearest_double (width self))))
      as [_|Hlt]; [done|].
    exfalso. set (B := 2 ^ 1025) in *. lia. }
  split.
  - intros pos [w' Hrun]%value_of_Ok. revert w Hrun.
    induction fuel as [|fuel IH]; intros w; [discriminate|].
    simpl.
    intros (x & w1 & Hx & (y & w2 & Hy & Hrun)%bind_Ok)%bind_Ok.
    unfold in_set, cell_eqb in Hrun.
    case_bool_decide as Hobs; simpl in Hrun; [by eapply IH|].
    apply bind_Ok in Hrun as (c0 & w3 & [Hc0 ->]%first_item_Ok & Hrun).
    case_bool_decide as Hne; simpl in Hrun; [by eapply IH|].
    apply bind_Ok in Hrun as (c1 & w4 & [Hc1 ->]%first_item_Ok & Hrun).
    apply bind_Ok in Hrun as (half & w5 & Hhalf & _).
    by rewrite Hdiv in Hhalf.
  - intros x w1 y w2 Hstart Hx Hy Hobs Hne. simpl.
    rewrite (bind_Ok_l _ _ _ _ _ Hx), (bind_Ok_l _ _ _ _ _ Hy).
    cbv zeta. unfold in_set, cell_eqb.
    rewrite bool_decide_eq_false_2 by done. simpl.
    rewrite (bind_Ok_l _ _ _ start w2) by (by apply first_item_Ok).
    rewrite bool_decide_eq_false_2 by done. simpl.
    rewrite (bind_Ok_l _ _ _ start w2) by (by apply first_item_Ok).
    by apply bind_Raise_l.
Qed.

Section SetOrder.

Context (set_iter : gset Cell -> list Cell).
Context (set_iter_perm : forall s, set_iter s ≡ₚ elements s).

Lemma seed_loop_no_raise (self : Game) (start : Cell) (N : Z) :
  head (cable self) = Some start ->
  1 <= width self -> 1 <= height self ->
  forall (fuel : nat) (obstacles : gset Cell) (w : World),
    seed_loop self fuel N obstacles w = OutOfFuel
    \/ exists s w', seed_loop self fuel N obstacles w = Ok (s, w').
Proof.
  intros Hstart Hwd Hht fuel.
  induction fuel as [|fuel IH]; intros obs w; [by left|]. simpl.
  destruct (_ <? _); [|right; by eexists _, _].
  destruct (randint_returns 0 (width self - 1) w) as (x & Hx & ?); [lia|].
  rewrite (bind_Ok_l _ _ _ _ _ Hx).
  destruct (randint_returns 0 (height self - 1) (rest w)) as (y & Hy & ?);
    [lia|].
  rewrite (bind_Ok_l _ _ _ _ _ Hy).
  cbv zeta.
  rewrite (bind_Ok_l _ _ _ start (rest (rest w))) by (by apply first_item_Ok).
  destruct (_ && _); apply IH.
Qed.

Lemma grow_loop_no_raise (self : Game) (start : Cell) (N : Z) :
  head (cable self) = Some start ->
  forall (fuel : nat) (obstacles : gset Cell) (w : World),
    obstacles <> ∅ ->
    grow_loop set_iter self fuel N obstacles w = OutOfFuel
    \/ exists s w', grow_loop set_iter self fuel N obstacles w = Ok (s, w').
Proof.
  intros Hstart fuel.
  induction fuel as [|fuel IH]; intros obs w Hobs; [by left|]. simpl.
  destruct (_ <? _); [|right; by eexists _, _].
  destruct (random_choice_returns (set_iter obs) w) as (existing & w1 & Hex).
  { intros Hnil. apply Hobs. apply set_eq. intros c.
    rewrite <- (elem_of_set_iter set_iter set_iter_perm), Hnil.
    rewrite elem_of_nil. set_solver. }
  rewrite (bind_Ok_l _ _ _ _ _ Hex).
  rewrite (bind_Ok_l _ _ _ _ _ (get_valid_neighbors_eq self existing start w1
                                  Hstart)).
  destruct (_ ≫= _) as [|n0 nb]; [by apply IH|].
  destruct (random_choice_returns (n0 :: nb) w1) as (new_pos & w2 & Hnew);
    [done|].
  rewrite (bind_Ok_l _ _ _ _ _ Hnew).
  destruct (negb _); apply IH; [set_solver|done].
Qed.

(** X11: asked for more obstacles than the grid has cells (and at least
    four), [_generate_correlated_obstacles] never returns and never
    fails: it is still looping when any budget of passes is used up. *)
Theorem too_many_obstacles (self : Game) (start : Cell) (fuel : nat) (N : Z)
    (w : World) :
  head (cable self) = Some start ->
  1 <= width self -> 1 <= height self ->
  4 <= N ->
  Z.of_nat (grid_size self) < N ->
  _generate_correlated_obstacles set_iter self fuel N w = OutOfFuel.
Proof.
  intros Hstart Hwd Hht HN Hbig.
  destruct (quarter N) as [Hq1 Hq2].
  destruct (_generate_correlated_obstacles set_iter self fuel N w)
    as [[s w']| |] eqn:Hgen; [exfalso| |done].
  - pose proof (correlated_obstacles_cells set_iter set_iter_perm
                  _ _ _ _ _ _ Hgen) as Hcells.
    unfold _generate_correlated_obstacles in Hgen.
    apply bind_Ok in Hgen as (seeds & w1 & Hseed & Hgrow).
    apply seed_loop_Ok in Hseed as [_ Hsize];
      [|by intros ? ?%elem_of_empty|rewrite size_empty; lia].
    eapply (grow_loop_Ok set_iter set_iter_perm) in Hgrow as [_ HsizeN];
      [|apply grown_seeds|lia].
    pose proof (grid_capacity self (elements s) (NoDup_elements s)) as Hcap.
    change (length (elements s)) with (size s) in Hcap.
    assert (size s <= grid_size self)%nat; [|lia].
    apply Hcap. intros c Hc%elem_of_elements. by apply Hcells.
  - exfalso. unfold _generate_correlated_obstacles in Hgen.
    destruct (seed_loop_no_raise self start N Hstart Hwd Hht fuel ∅ w)
      as [Hs|(seeds & w1 & Hs)].
    + by rewrite (bind_OutOfFuel_l _ _ _ Hs) in Hgen.
    + rewrite (bind_Ok_l _ _ _ _ _ Hs) in Hgen.
      pose proof Hs as Hs'.
      apply seed_loop_Ok in Hs' as [_ Hsize];
        [|by intros ? ?%elem_of_empty|rewrite size_empty; lia].
      destruct (grow_loop_no_raise self start N Hstart fuel seeds w1)
        as [Hg|(s & w' & Hg)]; [|by rewrite Hg in Hgen|by rewrite Hg in Hgen].
      intros ->. rewrite size_empty in Hsize. lia.
Qed.

(** X12: a game [__init__] returns for a count N >= 4 is running, heads
    right, has the one-cell trail (1, height - 2) and exactly N
    obstacles, which fit into the grid; its outlet lies inside the grid,
    is neither an obstacle nor the start and is farther from the start
    than [self.width / 2], half the double nearest to the width, which
    for a width of up to 2^53 is half the width; and its first tick
    returns. *)
Theorem init_state (fuel : nat) (wd ht N : Z) (w : World) (self : Game) :
  4 <= N ->
  value_of (__init__ set_iter fuel wd ht N w) = Ok self ->
  (width self = wd /\ height self = ht /\ cable self = [(1, ht - 2)]
   /\ direction self = RIGHT /\ running self = true)
  /\ (Z.of_nat (size (obstacles self)) = N /\ N <= wd * ht)
  /\ (in_grid self (outlet self) /\ (outlet self ∉ obstacles self)
      /\ outlet self <> (1, ht - 2)
      /\ nearest_double wd < 2 * manhattan (outlet self) (1, ht - 2)
      /\ (wd <= 2 ^ 53 -> wd < 2 * manhattan (outlet self) (1, ht - 2)))
  /\ forall w1, exists self' w', update set_iter self w1 = Ok (self', w').
Proof.
  intros HN Hinit.
  pose proof (init_Ok set_iter set_iter_perm _ _ _ _ _ _ Hinit)
    as (Hwd & Hht & Hcable & Hdir & Hrun & Hdom).
  pose proof (init_session_inv set_iter set_iter_perm _ _ _ _ _ _ Hinit)
    as Hinv.
  apply value_of_Ok in Hinit as [w' Hinit]. unfold __init__ in Hinit.
  apply bind_Ok in Hinit as (obs & w1 & Hgen & Hinit).
  apply bind_Ok in Hinit as (dirs & w2 & Hdirs & Hinit).
  apply bind_Ok in Hinit as (out & w3 & Hout & [= <-]).
  pose proof (correlated_obstacles_cells set_iter set_iter_perm
                _ _ _ _ _ _ Hgen) as Hcells.
  assert (Z.of_nat (size obs) = N) as Hsize.
  { unfold _generate_correlated_obstacles in Hgen.
    apply bind_Ok in Hgen as (seeds & w4 & Hseed & Hgrow).
    destruct (quarter N) as [Hq1 Hq2].
    apply seed_loop_Ok in Hseed as [_ Hseeds];
      [|by intros ? ?%elem_of_empty|rewrite size_empty; lia].
    eapply (grow_loop_Ok set_iter set_iter_perm) in Hgrow as [_ ?];
      [done|apply grown_seeds|lia]. }
  apply generate_outlet_checked in Hout
    as (Hgrid & Hfree & start & Hstart & Hne & Hfar).
  simpl in *. injection Hstart as <-.
  split_and!; try done.
  - pose proof (grid_capacity (fresh wd ht) (elements obs) (NoDup_elements obs))
      as Hcap.
    change (length (elements obs)) with (size obs) in Hcap.
    assert (size obs <= grid_size (fresh wd ht))%nat as Hle.
    { apply Hcap. intros c Hc%elem_of_elements. by apply Hcells. }
    assert (exists c, c ∈ obs) as [c Hc].
    { apply size_pos_elem_of. lia. }
    destruct (Hcells c Hc) as [[? ?] _]. simpl in *.
    unfold grid_size in Hle. simpl in Hle.
    rewrite <- Hsize. etrans; [apply Nat2Z.inj_le, Hle|].
    rewrite Nat2Z.inj_mul, !Z2Nat.id by lia. done.
  - intros Hsmall. destruct Hgrid as [[? ?] _]. simpl in *.
    by rewrite nearest_double_exact in Hfar by lia.
  - intros w0. apply (update_returns set_iter set_iter_perm).
    by apply session_inv_well_formed.
Qed.

(** X13: on a grid without columns or without rows the generators fail
    on their first random cell: with a budget of at least one pass
    [_generate_outlet] raises ValueError, and so does
    [_generate_correlated_obstacles] for every count of four or more. *)
Theorem generators_need_a_grid (self : Game) (fuel : nat) (N : Z) (w : World) :
  width self <= 0 \/ height self <= 0 ->
  fuel <> 0%nat ->
  _generate_outlet self fuel w = Raise ValueError
  /\ (4 <= N ->
      _generate_correlated_obstacles set_iter self fuel N w = Raise ValueError).
Proof.
  intros Hdim Hfuel. destruct fuel as [|fuel]; [done|]. split.
  - cbn [_generate_outlet]. by apply (random_cell_fails (A := Cell)).
  - intros HN. destruct (quarter N) as [Hq1 _].
    unfold _generate_correlated_obstacles. cbn [seed_loop].
    rewrite size_empty.
    destruct (Z.ltb_spec (Z.of_nat 0) (N / 4)) as [_|?]; [|lia].
    apply bind_Raise_l. by apply (random_cell_fails (A := gset Cell)).
Qed.

End SetOrder.

End GeneratorEdges.

(** ** The Game-of-Life variant: placing, ticking, drawing *)

Module LifeLoopFacts.
Import LifeGame LifeLoop LifeGameFacts.

(** X14: [_get_neighbors_count] lies between 0 and 8, so the brightness
    [draw] computes from it, min(100 + 20 * count, 255), lies between 100
    and 255; it is 100 + 20 * count for up to seven neighbours and is cut
    to 255 only for eight. *)
Theorem intensity_range (self : Game) (obstacle : Cell) :
  0 <= _get_neighbors_count self obstacle <= 8
  /\ 100 <= intensity self obstacle <= 255
  /\ (_get_neighbors_count self obstacle <= 7 ->
      intensity self obstacle = 100 + 20 * _get_neighbors_count self obstacle)
  /\ (_get_neighbors_count self obstacle = 8 -> intensity self obstacle = 255).
Proof.
  unfold intensity. rewrite get_neighbors_count_spec.
  assert (occupied_neighbors self obstacle <= 8)%nat as Hle.
  { unfold occupied_neighbors. etrans; [apply length_filter|]. done. }
  lia.
Qed.

Lemma place_pattern_fold (self : Game) (offset : Z * Z) (pattern : list (Z * Z))
    (placed : gset Cell) (c : Cell) :
  c ∈ fold_left (fun placed_cells p =>
        let new_x := p.1 + offset.1 in
        let new_y := p.2 + offset.2 in
        if (0 <=? new_x) && (new_x <? width self)
           && (0 <=? new_y) && (new_y <? height self)
           && negb (in_list (new_x, new_y) (cable self))
        then {[(new_x, new_y)]} ∪ placed_cells
        else placed_cells) pattern placed
  <-> c ∈ placed
      \/ exists p, p ∈ pattern /\ c = (p.1 + offset.1, p.2 + offset.2)
           /\ in_grid self c /\ (c ∉ cable self).
Proof.
  revert placed. induction pattern as [|q pattern IH]; intros placed; simpl.
  - split; [by left|]. intros [?|(p & ?%elem_of_nil & _)]; done.
  - rewrite IH. clear IH.
    assert ((0 <=? q.1 + offset.1) && (q.1 + offset.1 <? width self)
            && (0 <=? q.2 + offset.2) && (q.2 + offset.2 <? height self)
            && negb (in_list (q.1 + offset.1, q.2 + offset.2) (cable self))
            = true
            <-> in_grid self (q.1 + offset.1, q.2 + offset.2)
                /\ ((q.1 + offset.1, q.2 + offset.2) ∉ cable self)) as Htest.
    { unfold in_grid, in_list.
      rewrite !andb_true_iff, negb_true_iff, bool_decide_eq_false,
        !Z.leb_le, !Z.ltb_lt. simpl. tauto. }
    destruct (_ && negb _).
    + destruct Htest as [Htest _]. specialize (Htest eq_refl).
      rewrite elem_of_union, elem_of_singleton. split.
      * intros [[->|?]|(p & Hp & Hrest)]; [right|by left|right].
        -- exists q. split; [by left|]. tauto.
        -- exists p. split; [by right|done].
      * intros [?|(p & [->|Hp]%elem_of_cons & Hc & Hrest)];
          [left; by right|left; by left|right].
        by exists p.
    + split.
      * intros [?|(p & Hp & Hrest)]; [by left|right].
        exists p. split; [by right|done].
      * intros [?|(p & [->|Hp]%elem_of_cons & -> & Hrest)];
          [by left| |right].
        -- destruct Htest as [_ Htest]. by specialize (Htest Hrest).
        -- by exists p.
Qed.

Lemma place_pattern_size (self : Game) (offset : Z * Z) (pattern : list (Z * Z))
    (placed : gset Cell) :
  (size (fold_left (fun placed_cells p =>
        let new_x := p.1 + offset.1 in
        let new_y := p.2 + offset.2 in
        if (0 <=? new_x) && (new_x <? width self)
           && (0 <=? new_y) && (new_y <? height self)
           && negb (in_list (new_x, new_y) (cable self))
        then {[(new_x, new_y)]} ∪ placed_cells
        else placed_cells)%Z pattern placed)
   <= size placed + length pattern)%nat.
Proof.
  revert placed. induction pattern as [|q pattern IH]; intros placed; simpl.
  - lia.
  - etrans; [apply IH|]. destruct (_ && negb _); [|lia].
    etrans; [apply Nat.add_le_mono_r, ObstacleFacts.size_add|]. lia.
Qed.

(** X15: [_place_pattern] yields exactly the cells of the pattern, moved
    by the offset, that lie inside the grid and off the trail; so none
    outside the grid, none on the trail, and no more than the pattern
    has. *)
Theorem place_pattern_cells (self : Game) (pattern : list (Z * Z))
    (offset : Z * Z) (c : Cell) :
  (c ∈ _place_pattern self pattern offset <->
   exists p, p ∈ pattern /\ c = (p.1 + offset.1, p.2 + offset.2)
     /\ in_grid self c /\ (c ∉ cable self))
  /\ (size (_place_pattern self pattern offset) <= length pattern)%nat.
Proof.
  unfold _place_pattern. split.
  - rewrite place_pattern_fold, elem_of_empty. tauto.
  - etrans; [apply place_pattern_size|]. by rewrite size_empty.
Qed.

Lemma update_life_clear self c :
  c ∈ obstacles (_update_life self) ->
  (c ∉ cable self) /\ c <> outlet self.
Proof.
  unfold _update_life. simpl. rewrite life_grid_spec, elem_of_empty.
  unfold alive_next. tauto.
Qed.

Lemma life_unsafe_test (self : Game) (new_head : Cell) :
  (new_head.1 <? 0) || (new_head.1 >=? width self)
    || (new_head.2 <? 0) || (new_head.2 >=? height self)
    || in_list new_head (cable self)
    || in_set new_head (obstacles self) = false
  -> (new_head ∉ cable self) /\ (new_head ∉ obstacles self).
Proof.
  unfold in_list, in_set.
  rewrite !orb_false_iff, !bool_decide_eq_false. tauto.
Qed.

(** X16: with a trail that has a head, the tick of the Game-of-Life
    variant returns.  It keeps the update frequency; with the counter in
    0 .. frequency - 1 it counts the ticks modulo the frequency; on a
    tick without a life step the obstacles stay as they are.  It keeps
    the trail free of repeats; after a life step, or if it was so before,
    no obstacle lies on the trail and the outlet is no obstacle; and the
    trail is left alone or gets the proposed head appended. *)
Theorem life_tick (self : Game) (tip : Cell) (w : World) :
  last (cable self) = Some tip ->
  exists self' w',
    update self w = Ok (self', w')
    /\ life_update_frequency self' = life_update_frequency self
    /\ (0 <= update_counter self < life_update_frequency self ->
        update_counter self'
        = (update_counter self + 1) mod life_update_frequency self)
    /\ (update_counter self + 1 < life_update_frequency self ->
        obstacles self' = obstacles self)
    /\ (NoDup (cable self) -> NoDup (cable self'))
    /\ (life_update_frequency self <= update_counter self + 1
        \/ trail_clear self -> trail_clear self')
    /\ (life_update_frequency self <= update_counter self + 1
        \/ (outlet self ∉ obstacles self) ->
        outlet self' ∉ obstacles self')
    /\ (cable self' = cable self
        \/ cable self'
           = cable self ++ [(tip.1 + (value (direction self)).1,
                             tip.2 + (value (direction self)).2)]).
Proof.
  intros Hlast. unfold update. cbv zeta.
  set (counted := set_update_counter self (update_counter self + 1)).
  set (selfm := if update_counter counted >=? life_update_frequency counted
                then set_update_counter (_update_life counted) 0
                else counted).
  assert (cable selfm = cable self) as Hc
    by (subst selfm; by destruct (_ >=? _)).
  assert (direction selfm = direction self) as Hd
    by (subst selfm; by destruct (_ >=? _)).
  assert (outlet selfm = outlet self) as Ho
    by (subst selfm; by destruct (_ >=? _)).
  assert (life_update_frequency selfm = life_update_frequency self) as Hf
    by (subst selfm; by destruct (_ >=? _)).
  assert (0 <= update_counter self < life_update_frequency self ->
          update_counter selfm
          = (update_counter self + 1) mod life_update_frequency self) as Hcnt.
  { intros Hrange. subst selfm counted. simpl.
    destruct (Z.geb_spec (update_counter self + 1) (life_update_frequency self));
      simpl.
    - assert (update_counter self + 1 = life_update_frequency self) as ->
        by lia.
      by rewrite Z_mod_same_full.
    - rewrite Z.mod_small; lia. }
  assert (update_counter self + 1 < life_update_frequency self ->
          obstacles selfm = obstacles self) as Hsame.
  { intros Hlt. subst selfm counted. simpl.
    by destruct (Z.geb_spec (update_counter self + 1)
                            (life_update_frequency self)); [lia|]. }
  assert (life_update_frequency self <= update_counter self + 1
          \/ trail_clear self ->
          forall c, c ∈ obstacles selfm -> c ∉ cable self) as Hclear.
  { unfold trail_clear. subst selfm counted. simpl.
    destruct (Z.geb_spec (update_counter self + 1)
                         (life_update_frequency self)); simpl.
    - intros _ c Hc'. by apply (update_life_clear self c).
    - intros [?|Hcl]; [lia|done]. }
  assert (life_update_frequency self <= update_counter self + 1
          \/ (outlet self ∉ obstacles self) ->
          outlet self ∉ obstacles selfm) as Hout.
  { subst selfm counted. simpl.
    destruct (Z.geb_spec (update_counter self + 1)
                         (life_update_frequency self)); simpl.
    - intros _ Hin. by apply (update_life_clear self) in Hin as [_ ?].
    - intros [?|?]; [lia|done]. }
  clearbody selfm. clear counted.
  rewrite (bind_Ok_l _ _ w tip w)
    by (apply TickFacts.last_item_Ok; by rewrite Hc).
  rewrite Hd. destruct (value (direction self)) as [dx dy]. simpl.
  destruct (_ || in_set _ _) eqn:Htest.
  - eexists _, _. split; [reflexivity|].
    unfold trail_clear. simpl. rewrite Hc, Ho.
    split_and!; [done|done|done|done|done|done|by left].
  - apply (life_unsafe_test selfm (tip.1 + dx, tip.2 + dy)) in Htest
      as [Hfree Hnoobs].
    rewrite Hc in Hfree.
    assert (NoDup (cable self) ->
            NoDup (cable self ++ [(tip.1 + dx, tip.2 + dy)])) as Hnd.
    { intros Hnd. apply NoDup_app. split; [done|].
      split; [|apply NoDup_singleton].
      by intros x Hx ->%list_elem_of_singleton. }
    assert (life_update_frequency self <= update_counter self + 1
            \/ trail_clear self ->
            forall c, c ∈ obstacles selfm ->
                      c ∉ cable self ++ [(tip.1 + dx, tip.2 + dy)]) as Hcl.
    { intros Hpre c Hin [Hold|Hnew]%elem_of_app.
      - by apply (Hclear Hpre c Hin).
      - apply list_elem_of_singleton in Hnew. by subst c. }
    unfold cell_eqb. case_bool_decide; simpl.
    + eexists _, _. split; [reflexivity|].
      unfold trail_clear. simpl. rewrite Hc, Ho.
      split_and!; [done|done|done|done|done|done|by right].
    + eexists _, _. split; [reflexivity|].
      unfold trail_clear. simpl. rewrite Hc, Ho.
      split_and!; [done|done|done|done|done|done|by right].
Qed.

End LifeLoopFacts.

(** ** Rotating a pattern *)

Module PatternFacts.
Import LifeGame LifeLoop.

Lemma fold_left_ignoring {A B} (f : A -> A) (l : list B) (a : A) :
  fold_left (fun a _ => f a) l a = Nat.iter (length l) f a.
Proof.
  revert a. induction l as [|x l IH]; intros a; [done|].
  simpl fold_left. rewrite IH. simpl length. by rewrite Nat.iter_succ_r.
Qed.

Lemma turned_iter pattern rotations :
  turned pattern rotations = Nat.iter (Z.to_nat rotations) quarter_turn pattern.
Proof.
  unfold turned. rewrite fold_left_ignoring. unfold range.
  rewrite length_seqZ. do 2 f_equal. lia.
Qed.

Lemma quarter_turn_four pattern :
  quarter_turn (quarter_turn (quarter_turn (quarter_turn pattern))) = pattern.
Proof.
  unfold quarter_turn. rewrite !map_map.
  rewrite <- (map_id pattern) at 2. apply map_ext. intros [x y]. simpl.
  f_equal; lia.
Qed.

Lemma quarter_turn_shifted t pattern :
  quarter_turn (shifted t pattern) = shifted (t.2, - t.1) (quarter_turn pattern).
Proof.
  unfold quarter_turn, shifted. rewrite !map_map. apply map_ext.
  intros [x y]. simpl. f_equal; lia.
Qed.

Lemma iter_turn_shifted n t pattern :
  exists t', Nat.iter n quarter_turn (shifted t pattern)
             = shifted t' (Nat.iter n quarter_turn pattern).
Proof.
  induction n as [|n [t' IH]]; [by exists t|].
  exists (t'.2, - t'.1). simpl. by rewrite IH, quarter_turn_shifted.
Qed.

Lemma iter_turn_length n pattern :
  length (Nat.iter n quarter_turn pattern) = length pattern.
Proof.
  induction n as [|n IH]; [done|]. simpl. unfold quarter_turn at 1.
  by rewrite length_map.
Qed.

(** [fold_left Z.min l x] is the least of [x :: l]. *)
Lemma fold_min_spec (l : list Z) (x : Z) :
  fold_left Z.min l x ∈ x :: l
  /\ forall y, y ∈ x :: l -> fold_left Z.min l x <= y.
Proof.
  revert x. induction l as [|z l IH]; intros x; simpl.
  - split; [by left|]. intros y ->%list_elem_of_singleton. lia.
  - destruct (IH (Z.min x z)) as [Hin Hle]. split.
    + apply elem_of_cons in Hin as [->|Hin]; [|by do 2 right].
      destruct (Z.min_spec x z) as [[_ ->]|[_ ->]]; [by left|right; by left].
    + intros y Hy. 
      assert (fold_left Z.min l (Z.min x z) <= Z.min x z) by (apply Hle; by left).
      apply elem_of_cons in Hy as [->|[->|Hy]%elem_of_cons]; [lia|lia|].
      apply Hle. by right.
Qed.

Lemma fold_min_shift (l : list Z) (x t : Z) :
  fold_left Z.min (map (fun z => z - t) l) (x - t) = fold_left Z.min l x - t.
Proof.
  revert x. induction l as [|z l IH]; intros x; [done|]. simpl.
  rewrite <- IH. f_equal. lia.
Qed.

(** What [_rotate_pattern] does after its loop. *)
Lemma rotate_pattern_eq pattern rotations w :
  _rotate_pattern pattern rotations w
  = match turned pattern rotations with
    | [] => Raise ValueError
    | p :: l =>
        Ok (shifted (fold_left Z.min (map fst l) p.1,
                     fold_left Z.min (map snd l) p.2) (p :: l), w)
    end.
Proof.
  unfold _rotate_pattern. fold (turned pattern rotations).
  by destruct (turned pattern rotations) as [|p l].
Qed.

Lemma rotate_pattern_normalized pattern rotations :
  _rotate_pattern pattern rotations = normalized (turned pattern rotations).
Proof. reflexivity. Qed.

Lemma normalized_eq pattern w :
  normalized pattern w
  = match pattern with
    | [] => Raise ValueError
    | p :: l =>
        Ok (shifted (fold_left Z.min (map fst l) p.1,
                     fold_left Z.min (map snd l) p.2) (p :: l), w)
    end.
Proof. by destruct pattern. Qed.

Lemma normalized_shifted t pattern w :
  normalized (shifted t pattern) w = normalized pattern w.
Proof.
  rewrite !normalized_eq. destruct pattern as [|p l]; [done|].
  unfold shifted at 1. simpl map. fold (shifted t l).
  cbn [fst snd]. f_equal. f_equal.
  assert (map fst (shifted t l) = map (fun z => z - t.1) (map fst l)) as ->
    by (unfold shifted; by rewrite !map_map).
  assert (map snd (shifted t l) = map (fun z => z - t.2) (map snd l)) as ->
    by (unfold shifted; by rewrite !map_map).
  rewrite !fold_min_shift.
  change ((p.1 - t.1, p.2 - t.2) :: shifted t l) with (shifted t (p :: l)).
  unfold shifted. rewrite map_map. apply map_ext. intros [x y]. simpl.
  f_equal; lia.
Qed.

(** X17: [_rotate_pattern] raises ValueError on an empty pattern,
    whatever the number of rotations.  On a pattern with at least one
    cell it returns a pattern with as many cells, none with a negative
    coordinate, one with x = 0 and one with y = 0. *)
Theorem rotate_pattern_normal (p : Z * Z) (l : list (Z * Z)) (rotations : Z)
    (w : World) :
  _rotate_pattern [] rotations w = Raise ValueError
  /\ exists rotated,
       _rotate_pattern (p :: l) rotations w = Ok (rotated, w)
       /\ length rotated = length (p :: l)
       /\ (forall q, q ∈ rotated -> 0 <= q.1 /\ 0 <= q.2)
       /\ (exists q, q ∈ rotated /\ q.1 = 0)
       /\ (exists q, q ∈ rotated /\ q.2 = 0).
Proof.
  split.
  - rewrite rotate_pattern_eq, turned_iter.
    pose proof (iter_turn_length (Z.to_nat rotations) []) as Hlen.
    by destruct (Nat.iter _ _ _).
  - rewrite rotate_pattern_eq, turned_iter.
    pose proof (iter_turn_length (Z.to_nat rotations) (p :: l)) as Hlen.
    destruct (Nat.iter _ _ _) as [|p' l']; [done|].
    eexists. split; [reflexivity|].
    destruct (fold_min_spec (map fst l') p'.1) as [Hinx Hlex].
    destruct (fold_min_spec (map snd l') p'.2) as [Hiny Hley].
    change (p'.1 :: map fst l') with (map fst (p' :: l')) in Hinx, Hlex.
    change (p'.2 :: map snd l') with (map snd (p' :: l')) in Hiny, Hley.
    set (mx := fold_left Z.min (map fst l') p'.1) in *.
    set (my := fold_left Z.min (map snd l') p'.2) in *.
    unfold shifted. split_and!.
    + by rewrite length_map.
    + intros q (c & -> & Hc)%list_elem_of_fmap. simpl.
      pose proof (Hlex c.1 (list_elem_of_fmap_2 fst _ _ Hc)).
      pose proof (Hley c.2 (list_elem_of_fmap_2 snd _ _ Hc)). lia.
    + apply list_elem_of_fmap in Hinx as (c & Hmx & Hc).
      exists (c.1 - mx, c.2 - my). split; [|simpl; lia].
      by apply (list_elem_of_fmap_2 (fun q => (q.1 - mx, q.2 - my))).
    + apply list_elem_of_fmap in Hiny as (c & Hmy & Hc).
      exists (c.1 - mx, c.2 - my). split; [|simpl; lia].
      by apply (list_elem_of_fmap_2 (fun q => (q.1 - mx, q.2 - my))).
Qed.

(** X18: rotating a pattern [a] times and the result [b] times is
    rotating it [a + b] times, and four more rotations change nothing
    (for counts that are not negative); this holds of the outcome as a
    whole, the ValueError on an empty pattern included. *)
Theorem rotate_pattern_compose (pattern : list (Z * Z)) (a b : Z) (w : World) :
  0 <= a -> 0 <= b ->
  (rotated <- _rotate_pattern pattern a ;; _rotate_pattern rotated b) w
  = _rotate_pattern pattern (a + b) w
  /\ _rotate_pattern pattern (a + 4) w = _rotate_pattern pattern a w.
Proof.
  intros Ha Hb. rewrite !rotate_pattern_normalized, !turned_iter. split.
  - replace (Z.to_nat (a + b)) with (Z.to_nat b + Z.to_nat a)%nat by lia.
    rewrite Nat.iter_add.
    generalize (Nat.iter (Z.to_nat a) quarter_turn pattern). intros q.
    unfold bind at 1. rewrite (normalized_eq q).
    destruct q as [|p l]; [|].
    + rewrite normalized_eq.
      pose proof (iter_turn_length (Z.to_nat b) []) as Hlen.
      by destruct (Nat.iter _ _ _).
    + rewrite rotate_pattern_normalized, turned_iter.
      destruct (iter_turn_shifted (Z.to_nat b)
                  (fold_left Z.min (map fst l) p.1,
                   fold_left Z.min (map snd l) p.2) (p :: l)) as [t' ->].
      apply normalized_shifted.
  - replace (Z.to_nat (a + 4)) with (Z.to_nat a + 4)%nat by lia.
    rewrite Nat.iter_add. simpl Nat.iter at 2.
    by rewrite quarter_turn_four.
Qed.

End PatternFacts.

(** ** More concrete runs *)

Module MoreRuns.
Import CableGame CableLoop Runs.

Lemma session_start_reachable : reachable elements session_start.
Proof.
  exists session_start. split; [exact session_start_initial|apply rtc_refl].
Defined.

Lemma obstacle_of_session_next : (4, 6) ∈ obstacles session_next.
Proof.
  apply (bool_decide_unpack ((4, 6) ∈ obstacles session_next)).
  vm_compute. exact I.
Defined.

Lemma corner_game_full (c : Cell) :
  in_grid corner_game c ->
  c ∈ obstacles corner_game \/ c = (1, 1)
  \/ 2 * manhattan c (1, 1) <= nearest_double (width corner_game).
Proof.
  change (nearest_double (width corner_game)) with 3.
  destruct c as [x y]. unfold in_grid, manhattan. simpl. intros [Hx Hy].
  assert (x = 0 \/ x = 1 \/ x = 2) as Hx' by lia.
  assert (y = 0 \/ y = 1 \/ y = 2) as Hy' by lia.
  destruct Hx' as [-> | [-> | ->]], Hy' as [-> | [-> | ->]];
    first [ right; left; reflexivity
          | right; right; simpl; lia
          | left; match goal with
                  | |- ?P => apply (bool_decide_unpack P); vm_compute; exact I
                  end ].
Defined.

(** [valid_neighbors_exact] around the corner cell (0, 0) of the 5 x 5
    session. *)
Lemma valid_neighbors_exact_witness :
  exists neighbors,
    _get_valid_neighbors edge_game (0, 0) calm = Ok (neighbors, calm)
    /\ NoDup neighbors
    /\ (length neighbors <= 8)%nat
    /\ forall c, c ∈ neighbors <->
         adjacent (0, 0) c /\ in_grid edge_game c /\ c <> (1, 3).
Proof.
  apply (NeighborFacts.valid_neighbors_exact edge_game (0, 0) (1, 3) calm).
  reflexivity.
Defined.

Lemma directions_are_headings_witness :
  dom (obstacle_directions session_next) = obstacles session_next
  /\ forall c, c ∈ obstacles session_next ->
       exists d, obstacle_directions session_next !! c = Some d
         /\ is_heading d.
Proof.
  apply (InvariantFacts.directions_are_headings elements elements_order
           session_next).
  exact session_next_reachable.
Defined.

Lemma obstacles_keep_clear_witness :
  in_grid session_next (4, 6) /\ ((4, 6) ∉ cable session_next)
  /\ (4, 6) <> outlet session_next.
Proof.
  apply (InvariantFacts.obstacles_keep_clear elements elements_order
           session_next (4, 6));
    [exact session_next_reachable | exact obstacle_of_session_next].
Defined.

Lemma trail_is_a_path_witness :
  head (cable session_next) = Some (1, height session_next - 2)
  /\ path (cable session_next)
  /\ (forall c, c ∈ tail (cable session_next) -> in_grid session_next c)
  /\ (length (cable session_next) <= S (grid_size session_next))%nat.
Proof.
  apply (InvariantFacts.trail_is_a_path elements elements_order session_next).
  exact session_next_reachable.
Defined.

Lemma stopped_stays_stopped_witness :
  width merged_next = width merge_game
  /\ height merged_next = height merge_game
  /\ outlet merged_next = outlet merge_game
  /\ (running merge_game = false -> running merged_next = false)
  /\ running (handle_input merge_game [KEYDOWN K_UP; QUIT])
     = running merge_game && negb (existsb is_quit [KEYDOWN K_UP; QUIT]).
Proof.
  apply (InvariantFacts.stopped_stays_stopped elements elements_order
           merge_game merged_next [KEYDOWN K_UP; QUIT]).
  exact merge_game_steps.
Defined.

Lemma obstacles_move_one_cell_witness :
  exists self' w',
    _update_obstacles elements session_next calm = Ok (self', w')
    /\ forall c, c ∈ obstacles self' ->
         exists obs, obs ∈ obstacles session_next /\ manhattan obs c <= 1.
Proof.
  apply (InvariantFacts.obstacles_move_one_cell elements elements_order
           session_next calm).
  exact session_next_reachable.
Defined.

Lemma two_keys_reverse_witness :
  direction (handle_input session_next
               [KEYDOWN (key_of LEFT);
                KEYDOWN (key_of (opposite (direction session_next)))])
  = opposite (direction session_next)
  /\ cable session_reversed = cable session_next
  /\ running session_reversed = false
  /\ trace (mkWorld (tape (Nat.iter 5 rest calm)) [FailSound])
     = trace calm ++ [FailSound].
Proof.
  apply (LoopFacts.two_keys_reverse elements elements_order session_next LEFT
           calm [] (1, 8) session_reversed
           (mkWorld (tape (Nat.iter 5 rest calm)) [FailSound]));
    [reflexivity | reflexivity | vm_compute; reflexivity].
Defined.

Lemma draw_never_fails_witness :
  exists frame,
    draw elements session_next calm = Ok (frame, calm)
    /\ length frame
       = (size (obstacles session_next) + length (cable session_next) + 1)%nat
    /\ last frame = Some (cell_rect (outlet session_next), (255, 0, 0))
    /\ (forall segment, segment ∈ cable session_next ->
          (cell_rect segment, (0, 255, 0)) ∈ frame)
    /\ forall o, o ∈ obstacles session_next ->
         exists d, obstacle_directions session_next !! o = Some d
           /\ (cell_rect o, obstacle_color d) ∈ frame
           /\ obstacle_color d ∈ [(128, 128, 160); (160, 160, 128);
                                  (160, 128, 128); (128, 160, 128)].
Proof.
  apply (LoopFacts.draw_never_fails elements elements_order session_next calm).
  exact session_next_reachable.
Defined.

Lemma run_ends_witness :
  exists self' w',
    run elements 103 session_start [[KEYDOWN K_UP]] calm = Ok (self', w')
    /\ running self' = false
    /\ reachable elements self'.
Proof.
  apply (LoopFacts.run_ends elements elements_order session_start
           [[KEYDOWN K_UP]] calm 103);
    [exact session_start_reachable | vm_compute; lia].
Defined.

Lemma outlet_may_never_come_witness :
  _generate_outlet corner_game 50 session_world = OutOfFuel.
Proof.
  apply (GeneratorEdges.outlet_may_never_come corner_game (1, 1) 50
           session_world);
    [reflexivity | simpl; lia | simpl; lia | exact corner_game_full].
Defined.

Lemma too_many_obstacles_witness :
  _generate_correlated_obstacles elements (fresh 2 2) 50 5 session_world
  = OutOfFuel.
Proof.
  apply (GeneratorEdges.too_many_obstacles elements elements_order
           (fresh 2 2) (1, 0) 50 5 session_world);
    [reflexivity | simpl; lia | simpl; lia | lia | vm_compute; reflexivity].
Defined.

Lemma init_state_witness :
  (width session_start = 10 /\ height session_start = 10
   /\ cable session_start = [(1, 10 - 2)]
   /\ direction session_start = RIGHT /\ running session_start = true)
  /\ (Z.of_nat (size (obstacles session_start)) = 4 /\ 4 <= 10 * 10)
  /\ (in_grid session_start (outlet session_start)
      /\ (outlet session_start ∉ obstacles session_start)
      /\ outlet session_start <> (1, 10 - 2)
      /\ nearest_double 10 < 2 * manhattan (outlet session_start) (1, 10 - 2)
      /\ (10 <= 2 ^ 53 ->
          10 < 2 * manhattan (outlet session_start) (1, 10 - 2)))
  /\ forall w1, exists self' w',
       update elements session_start w1 = Ok (self', w').
Proof.
  apply (GeneratorEdges.init_state elements elements_order 20 10 10 4
           session_world session_start);
    [lia | vm_compute; reflexivity].
Defined.

Lemma generators_need_a_grid_witness :
  _generate_outlet (fresh 0 10) 20 session_world = Raise ValueError
  /\ (4 <= 50 ->
      _generate_correlated_obstacles elements (fresh 0 10) 20 50 session_world
      = Raise ValueError).
Proof.
  apply (GeneratorEdges.generators_need_a_grid elements (fresh 0 10) 20 50
           session_world); [left; simpl; lia | lia].
Defined.

(** [outlet_overflow] on a grid of 2^1025 columns and 3 rows, the first
    cell drawn being (3, 0). *)
Lemma outlet_overflow_witness :
  (forall pos,
     value_of (_generate_outlet (fresh (2 ^ 1025) 3) 20 session_world)
     <> Ok pos)
  /\ (forall x w1 y w2,
        head (cable (fresh (2 ^ 1025) 3)) = Some (1, 1) ->
        random_randint 0 (width (fresh (2 ^ 1025) 3) - 1) session_world
        = Ok (x, w1) ->
        random_randint 0 (height (fresh (2 ^ 1025) 3) - 1) w1 = Ok (y, w2) ->
        (x, y) ∉ obstacles (fresh (2 ^ 1025) 3) ->
        (x, y) <> (1, 1) ->
        _generate_outlet (fresh (2 ^ 1025) 3) 21 session_world
        = Raise OverflowError).
Proof.
  apply (GeneratorEdges.outlet_overflow (fresh (2 ^ 1025) 3) (1, 1) 20
           session_world).
  simpl. lia.
Defined.

Lemma life_tick_witness :
  exists self' w',
    LifeLoop.update LifeGame.blinker_game calm = Ok (self', w')
    /\ LifeGame.life_update_frequency self'
       = LifeGame.life_update_frequency LifeGame.blinker_game
    /\ (0 <= LifeGame.update_counter LifeGame.blinker_game
            < LifeGame.life_update_frequency LifeGame.blinker_game ->
        LifeGame.update_counter self'
        = (LifeGame.update_counter LifeGame.blinker_game + 1)
            mod LifeGame.life_update_frequency LifeGame.blinker_game)
    /\ (LifeGame.update_counter LifeGame.blinker_game + 1
          < LifeGame.life_update_frequency LifeGame.blinker_game ->
        LifeGame.obstacles self' = LifeGame.obstacles LifeGame.blinker_game)
    /\ (NoDup (LifeGame.cable LifeGame.blinker_game) ->
        NoDup (LifeGame.cable self'))
    /\ (LifeGame.life_update_frequency LifeGame.blinker_game
          <= LifeGame.update_counter LifeGame.blinker_game + 1
        \/ LifeLoop.trail_clear LifeGame.blinker_game -> LifeLoop.trail_clear self')
    /\ (LifeGame.life_update_frequency LifeGame.blinker_game
          <= LifeGame.update_counter LifeGame.blinker_game + 1
        \/ (LifeGame.outlet LifeGame.blinker_game
            ∉ LifeGame.obstacles LifeGame.blinker_game) ->
        LifeGame.outlet self' ∉ LifeGame.obstacles self')
    /\ (LifeGame.cable self' = LifeGame.cable LifeGame.blinker_game
        \/ LifeGame.cable self'
           = LifeGame.cable LifeGame.blinker_game
             ++ [((0, 0).1
                  + (value (LifeGame.direction LifeGame.blinker_game)).1,
                  (0, 0).2
                  + (value (LifeGame.direction LifeGame.blinker_game)).2)]).
Proof.
  apply (LifeLoopFacts.life_tick LifeGame.blinker_game (0, 0) calm).
  reflexivity.
Defined.

Lemma rotate_pattern_compose_witness :
  (rotated <- LifeLoop._rotate_pattern [(0, 0); (1, 0); (2, 0); (2, 1); (1, 2)] 1 ;;
   LifeLoop._rotate_pattern rotated 2) calm
  = LifeLoop._rotate_pattern [(0, 0); (1, 0); (2, 0); (2, 1); (1, 2)] (1 + 2) calm
  /\ LifeLoop._rotate_pattern [(0, 0); (1, 0); (2, 0); (2, 1); (1, 2)] (1 + 4) calm
     = LifeLoop._rotate_pattern [(0, 0); (1, 0); (2, 0); (2, 1); (1, 2)] 1 calm.
Proof.
  apply (PatternFacts.rotate_pattern_compose
           [(0, 0); (1, 0); (2, 0); (2, 1); (1, 2)] 1 2 calm); lia.
Defined.

Lemma outlet_waits_witness :
  in_grid session_next (outlet session_next)
  /\ (running session_next = true -> outlet session_next ∉ cable session_next).
Proof.
  apply (InvariantFacts.outlet_waits elements elements_order session_next).
  exact session_next_reachable.
Defined.

End MoreRuns.

(** ** The random soup when it comes about *)

Module SoupReturns.
Import LifeGame LifeLoop LifeGameFacts SoupFacts.

(** A loop whose body returns and keeps [P] returns and keeps [P]. *)
Lemma for_each_keeps {A S} (P : S -> Prop) (l : list A) (body : S -> A -> M S) :
  (forall s x w, x ∈ l -> P s ->
     exists s' w', body s x w = Ok (s', w') /\ P s') ->
  forall acc w, P acc ->
    exists acc' w', for_each l body acc w = Ok (acc', w') /\ P acc'.
Proof.
  induction l as [|x l IH]; intros Hb acc w Hacc; simpl.
  - by exists acc, w.
  - destruct (Hb acc x w) as (s1 & w1 & H1 & HP); [by left|done|].
    rewrite (bind_Ok_l _ _ _ _ _ H1).
    apply IH; [|done]. intros. apply Hb; [by right|done].
Qed.

Lemma soup_cell_bound self x y size dx dy st w :
  - size <= dx <= size -> - size <= dy <= size ->
  bound self (x, y) size st ->
  exists st' w',
    soup_cell self x y dx st dy w = Ok (st', w')
    /\ bound self (x, y) size st'.
Proof.
  intros Hdx Hdy ((c & Hc & Hcx & Hcy) & Hsoup & Hfirst).
  destruct st as [soup new]. simpl in *. subst new.
  destruct (lt_0_5 (next_random w)) eqn:Hr.
  - unfold soup_cell.
    rewrite (bind_Ok_l _ _ _ _ _ (random_random_eq w)), Hr.
    pose proof (soup_bounds_test self (x + dx, y + dy)) as Htest.
    cbn [fst snd] in Htest. cbv zeta. cbv iota beta. rewrite Htest.
    case_bool_decide as Hgrid; eexists _, _; (split; [reflexivity|]);
      (split_and!; simpl;
       [exists (x + dx, y + dy); simpl; split; [done|lia]| |]).
    + intros c' [->%elem_of_singleton|Hc']%elem_of_union; [|by apply Hsoup].
      simpl. split; [done|lia].
    + intros Hg. apply elem_of_union. right. by apply Hfirst.
    + done.
    + done.
  - eexists _, _. split; [by apply soup_cell_stale|].
    split_and!; simpl.
    + by exists c.
    + case_bool_decide as Hgrid; [|done].
      intros c' [->%elem_of_singleton|Hc']%elem_of_union; [|by apply Hsoup].
      done.
    + intros Hg. case_bool_decide; [|by apply Hfirst].
      apply elem_of_union. right. by apply Hfirst.
Qed.

Lemma soup_cell_first self x y size w :
  0 <= size ->
  lt_0_5 (next_random w) = true ->
  exists st' w',
    soup_cell self x y (- size) (∅, None) (- size) w = Ok (st', w')
    /\ bound self (x, y) size st'.
Proof.
  intros Hsize Hr. unfold soup_cell.
  rewrite (bind_Ok_l _ _ _ _ _ (random_random_eq w)), Hr.
  pose proof (soup_bounds_test self (x + - size, y + - size)) as Htest.
  cbn [fst snd] in Htest. cbv zeta. cbv iota beta. rewrite Htest.
  assert ((x - size, y - size) = (x + - size, y + - size)) as Heq
    by (f_equal; lia).
  case_bool_decide as Hgrid; eexists _, _; (split; [reflexivity|]);
    unfold bound; simpl; rewrite Heq; split_and!.
  - exists (x + - size, y + - size). simpl. split; [done|lia].
  - intros c [->%elem_of_singleton|?%elem_of_empty]%elem_of_union; [|done].
    simpl. split; [done|lia].
  - intros _. apply elem_of_union. left. by apply elem_of_singleton.
  - exists (x + - size, y + - size). simpl. split; [done|lia].
  - by intros c ?%elem_of_empty.
  - done.
Qed.

Lemma soup_row_bound self x y size dx (ys : list Z) st w :
  - size <= dx <= size ->
  (forall dy, dy ∈ ys -> - size <= dy <= size) ->
  bound self (x, y) size st ->
  exists st' w',
    for_each ys (soup_cell self x y dx) st w = Ok (st', w')
    /\ bound self (x, y) size st'.
Proof.
  intros Hdx Hys Hst.
  apply (for_each_keeps (bound self (x, y) size)); [|done].
  intros s dy w1 Hdy Hs. apply soup_cell_bound; [done|by apply Hys|done].
Qed.

(** X19: when the first draw is below 0.5 (and the size is not negative)
    [_generate_random_soup] returns; every cell of the soup lies inside
    the grid and within [size] columns and rows of the centre, and the
    soup holds the corner cell of its first iteration if that cell is
    inside the grid. *)
Theorem random_soup_returns (self : Game) (center : Cell) (size : Z)
    (w : World) :
  0 <= size ->
  lt_0_5 (next_random w) = true ->
  exists soup w',
    _generate_random_soup self center size w = Ok (soup, w')
    /\ (forall c, c ∈ soup ->
          in_grid self c
          /\ Z.abs (c.1 - center.1) <= size
          /\ Z.abs (c.2 - center.2) <= size)
    /\ (in_grid self (center.1 - size, center.2 - size) ->
        (center.1 - size, center.2 - size) ∈ soup).
Proof.
  intros Hsize Hr. destruct center as [x y]. unfold _generate_random_soup.
  assert (forall d, d ∈ range (- size) (size + 1) -> - size <= d <= size)
    as Hrange by (intros d Hd%elem_of_range; lia).
  assert (forall d, d ∈ range (- size + 1) (size + 1) -> - size <= d <= size)
    as Hrange' by (intros d Hd%elem_of_range; lia).
  assert (exists st' w',
            for_each (range (- size) (size + 1)) (fun st dx =>
              for_each (range (- size) (size + 1)) (soup_cell self x y dx) st)
              (∅, None) w = Ok (st', w')
            /\ bound self (x, y) size st') as (st' & w' & Hloop & Hbound).
  { destruct (soup_cell_first self x y size w Hsize Hr)
      as (st1 & w1 & Hfirst & Hb1).
    destruct (soup_row_bound self x y size (- size)
                (range (- size + 1) (size + 1)) st1 w1)
      as (st2 & w2 & Hrow & Hb2); [lia|done|done|].
    destruct (for_each_keeps (bound self (x, y) size)
                (range (- size + 1) (size + 1))
                (fun st dx =>
                   for_each (range (- size) (size + 1))
                            (soup_cell self x y dx) st)) with (acc := st2)
                                                              (w := w2)
      as (st3 & w3 & Hrows & Hb3); [|done|].
    { intros s dx w3 Hdx Hs. apply soup_row_bound; [by apply Hrange'|done|done]. }
    exists st3, w3. split; [|done].
    rewrite (range_cons (- size)) at 1 by lia. cbn [for_each].
    rewrite (bind_Ok_l _ _ w st2 w2); [done|].
    rewrite (range_cons (- size)) by lia. cbn [for_each].
    by rewrite (bind_Ok_l _ _ _ _ _ Hfirst). }
  rewrite (bind_Ok_l _ _ _ _ _ Hloop).
  exists st'.1, w'. split; [done|].
  destruct Hbound as (_ & Hsoup & Hfirst). split; done.
Qed.

End SoupReturns.

Module SoupRuns.
Import LifeGame.

Lemma random_soup_returns_witness :
  exists soup w',
    _generate_random_soup small_game (2, 2) 1 (world_of [0%N] (2 ^ 52)%N)
    = Ok (soup, w')
    /\ (forall c, c ∈ soup ->
          in_grid small_game c
          /\ Z.abs (c.1 - (2, 2).1) <= 1
          /\ Z.abs (c.2 - (2, 2).2) <= 1)
    /\ (in_grid small_game ((2, 2).1 - 1, (2, 2).2 - 1) ->
        ((2, 2).1 - 1, (2, 2).2 - 1) ∈ soup).
Proof.
  apply (SoupReturns.random_soup_returns small_game (2, 2) 1
           (world_of [0%N] (2 ^ 52)%N)); [lia | reflexivity].
Defined.

End SoupRuns.
